(** * archivex: ZIP and TAR archive writers

    A shallow embedding of [archivex.go] (package [archivex]) and the
    properties of its destination naming, entry writing and close
    sequencing.

    Go strings are byte sequences: they are modelled as [list ascii].
    The collaborators of the package (the file system, the ZIP, TAR and
    gzip encoders, output sinks, the clock) are external: every call to one
    of them is recorded in a trace and answered by an environment that sees
    the trace so far, so a theorem holds for every behaviour they can show. *)

From Stdlib Require Import Ascii String.
From Stdlib Require Import List ZArith Lia Bool Arith.
Import ListNotations.

Set Implicit Arguments.

(** ** The parts of Go's [strings] package the program calls *)

Module GoStrings.

Definition gostring := list ascii.

(** A string literal. *)
Definition str (s : string) : gostring := list_ascii_of_string s.

(** [s == t] on strings. *)
Fixpoint eqb (s t : gostring) : bool :=
  match s, t with
  | [], [] => true
  | a :: s', b :: t' => Ascii.eqb a b && eqb s' t'
  | _, _ => false
  end.

(** [strings.HasPrefix]:
    [len(s) >= len(prefix) && s[:len(prefix)] == prefix]. *)
Definition HasPrefix (s prefix : gostring) : bool :=
  (length prefix <=? length s) && eqb (firstn (length prefix) s) prefix.

(** [strings.HasSuffix]:
    [len(s) >= len(suffix) && s[len(s)-len(suffix):] == suffix]. *)
Definition HasSuffix (s suffix : gostring) : bool :=
  (length suffix <=? length s)
  && eqb (skipn (length s - length suffix) s) suffix.

(** [strings.Index]: the index of the first instance of [substr] in [s];
    Go's [-1] is [None]. *)
Fixpoint Index (s substr : gostring) : option nat :=
  if HasPrefix s substr then Some 0
  else match s with
       | [] => None
       | _ :: s' => option_map S (Index s' substr)
       end.

(** [strings.Count] for a non-empty [substr]: the number of
    non-overlapping instances, found from the left.  Go's loop
    [i := Index(s, substr); if i == -1 return n; n++; s = s[i+len(substr):]]
    runs at most [len(s)] times, which bounds the recursion. *)
Fixpoint count_loop (bound : nat) (s substr : gostring) : nat :=
  match bound with
  | 0 => 0
  | S b =>
      match Index s substr with
      | None => 0
      | Some i => S (count_loop b (skipn (i + length substr) s) substr)
      end
  end.

Definition Count (s substr : gostring) : nat :=
  count_loop (length s) s substr.

(** The replacement loop of [strings.Replace]
    ([for i := 0; i < n; i++ { j := start + Index(s[start:], old); ... }]):
    [n] instances are replaced and the rest of [s] is copied. *)
Fixpoint replace_loop (n : nat) (s old new : gostring) : gostring :=
  match n with
  | 0 => s
  | S n' =>
      match Index s old with
      | None => s
      | Some j =>
          firstn j s ++ new ++ replace_loop n' (skipn (j + length old) s) old new
      end
  end.

(** [strings.Replace(s, old, new, n)] for a non-empty [old] (the program
    only passes the literals [".zip"] and [".tar.gz"]): the first [n]
    non-overlapping instances of [old] are replaced by [new], all of them
    when [n < 0]. *)
Definition Replace (s old new : gostring) (n : Z) : gostring :=
  if eqb old new || (n =? 0)%Z then s
  else
    let m := Count s old in
    if (m =? 0)%nat then s
    else
      let n' := if (n <? 0)%Z || (Z.of_nat m <? n)%Z then m else Z.to_nat n in
      replace_loop n' s old new.

End GoStrings.
Import GoStrings.

(** ** Destination names *)

Definition dot_zip : gostring := str ".zip".
Definition dot_tar : gostring := str ".tar".
Definition dot_tar_gz : gostring := str ".tar.gz".

(** The name computed at the head of [ZipFile.Create] (lines 50-57):
    the value assigned to [z.Name]. *)
Definition zipName (name : gostring) : gostring :=
  if negb (HasSuffix name dot_zip) then
    if HasSuffix name dot_tar_gz then Replace name dot_tar_gz dot_zip (-1)
    else name ++ dot_zip
  else name.

(** ** Collaborators *)

(** A non-nil Go [error]; [nil] is [None] in an [option error]. *)
Definition error := string.

Definition EOF : error := "EOF"%string.
Definition ErrShortWrite : error := "short write"%string.
Definition errInvalidWrite : error := "invalid write result"%string.

(** Output sinks ([io.Writer] values): the [*os.File] that [os.Create]
    returns, which has a [Close] method, or a writer the caller supplies,
    which may or may not implement [io.Closer]. *)
Inductive sink :=
| OsFile (path : gostring)
| UserWriter (id : nat) (closer : bool).

Definition implementsCloser (s : sink) : bool :=
  match s with
  | OsFile _ => true
  | UserWriter _ c => c
  end.

(** The type assertion [out.(io.Closer)] on an interface value that may be
    nil ([None]). *)
Definition asCloser (out : option sink) : option sink :=
  match out with
  | Some s => if implementsCloser s then Some s else None
  | None => None
  end.

(** The encoders are values built by constructors that perform no I/O. *)
Inductive gzipWriter := gzip_NewWriter (w : sink).
Inductive ioWriter := ToSink (s : sink) | ToGzip (g : gzipWriter).
Inductive tarWriter := tar_NewWriter (w : ioWriter).
Inductive zipWriter := zip_NewWriter (w : sink).

(** [zip.FileHeader], with the fields the program sets. *)
Record zipFileHeader := {
  zh_Name : gostring;
  zh_Flags : Z;
  zh_Method : Z
}.

Definition zip_Store : Z := 0.
Definition zip_Deflate : Z := 8.

(** [tar.Header], with the fields the program sets. *)
Record tarHeader := {
  th_Name : gostring;
  th_Typeflag : ascii;
  th_Size : Z;
  th_Mode : Z;
  th_ModTime : Z
}.

Definition tar_TypeReg : ascii := "0"%char.
Definition tar_TypeDir : ascii := "5"%char.
Definition os_ModeDir : Z := Z.shiftl 1 31.

(** A call to a collaborator. *)
Inductive event :=
| EvOsCreate (path : gostring)
| EvZipCreateHeader (w : zipWriter) (h : zipFileHeader)
| EvZipWrite (w : zipWriter) (p : list Byte.byte)
| EvZipClose (w : zipWriter)
| EvTarWriteHeader (w : tarWriter) (h : tarHeader)
| EvTarWrite (w : tarWriter) (p : list Byte.byte)
| EvTarClose (w : tarWriter)
| EvGzipClose (g : gzipWriter)
| EvSinkClose (s : sink).

Definition trace := list event.

(** The environment: the error a call returns, the byte count a [Write]
    returns, and the clock, each as a function of the calls made before. *)
Record Env := {
  reply_err : event -> trace -> option error;
  reply_n : event -> trace -> Z;
  clock : trace -> Z
}.

(** ** The monad of the embedding: a trace of calls, and the ways a Go
    function can fail to return *)

Inductive outcome (A : Type) :=
| Ret (a : A)
| Panic          (* a run-time panic, as on a nil pointer *)
| OutOfFuel.     (* a loop that has not finished *)

Arguments Ret {A} a.
Arguments Panic {A}.
Arguments OutOfFuel {A}.

Definition M (A : Type) := trace -> outcome A * trace.

Definition ret {A} (a : A) : M A := fun tr => (Ret a, tr).

Definition bind {A B} (m : M A) (k : A -> M B) : M B :=
  fun tr =>
    match m tr with
    | (Ret a, tr') => k a tr'
    | (Panic, tr') => (Panic, tr')
    | (OutOfFuel, tr') => (OutOfFuel, tr')
    end.

Declare Scope go_scope.
Delimit Scope go_scope with go.
Notation "x <- m ;; k" := (bind m (fun x => k))
  (at level 100, m at next level, right associativity) : go_scope.
Notation "' p <- m ;; k" := (bind m (fun x => let p := x in k))
  (at level 100, p pattern, m at next level, right associativity) : go_scope.
Open Scope go_scope.

(** Using a pointer: a nil one panics. *)
Definition deref {A} (p : option A) : M A :=
  fun tr => match p with
            | Some a => (Ret a, tr)
            | None => (Panic, tr)
            end.

Definition out_of_fuel {A} : M A := fun tr => (OutOfFuel, tr).

Section Calls.
Variable env : Env.

(** A call that returns an [error]. *)
Definition call (ev : event) : M (option error) :=
  fun tr => (Ret (reply_err env ev tr), tr ++ [ev]).

(** A [Write], which returns [(n int, err error)]. *)
Definition write (ev : event) : M (Z * option error) :=
  fun tr => (Ret (reply_n env ev tr, reply_err env ev tr), tr ++ [ev]).

(** [os.Create(path)]. *)
Definition os_Create (path : gostring) : M (sink + error) :=
  e <- call (EvOsCreate path) ;;
  ret (match e with
       | Some e => inr e
       | None => inl (OsFile path)
       end).

(** [time.Now()]. *)
Definition time_Now : M Z := fun tr => (Ret (clock env tr), tr).
End Calls.

(** ** Byte sources and [io.Copy] *)

Inductive whence := SeekStart | SeekCurrent | SeekEnd.

(** Go's [io.ReadSeeker] over a state [R].  [Read n] is [Read(p)] with
    [len(p) = n] and returns the bytes stored in [p[:n']]; [Seek] returns
    the new offset. *)
Class ReadSeeker (R : Type) := {
  Read : Z -> R -> R * (list Byte.byte * option error);
  Seek : Z -> whence -> R -> R * (Z * option error)
}.

(** The offset a [Seek] counts from, for a source that holds the bytes
    [content r] and stands at [offset r]. *)
Definition seek_base {R} (content : R -> list Byte.byte) (offset : R -> nat)
    (wh : whence) (r : R) : Z :=
  match wh with
  | SeekStart => 0
  | SeekCurrent => Z.of_nat (offset r)
  | SeekEnd => Z.of_nat (length (content r))
  end.

(** The contract of [io.Reader] and [io.Seeker]: a read returns at most
    [len(p)] of the next bytes and advances by them, [io.EOF] is returned
    only at the end, a read into a non-empty buffer that returns no error
    returns at least one byte (Go discourages the opposite, and a source
    that keeps doing it keeps [io.Copy] from returning), and a seek that
    succeeds moves to the offset it returns, counted from the start, the
    current offset or the end.  Reads and seeks may fail at any time. *)
Definition lawful {R} (RS : ReadSeeker R)
    (content : R -> list Byte.byte) (offset : R -> nat) : Prop :=
  (forall n r r' p er, Read n r = (r', (p, er)) ->
     content r' = content r
     /\ (0 <= n -> Z.of_nat (length p) <= n)%Z
     /\ p = firstn (length p) (skipn (offset r) (content r))
     /\ offset r' = offset r + length p
     /\ (er = Some EOF -> length (content r) <= offset r')
     /\ (er = None -> (0 < n)%Z -> p <> []))
  /\ (forall off wh r r' n, Seek off wh r = (r', (n, None)) ->
     content r' = content r
     /\ n = (seek_base content offset wh r + off)%Z
     /\ Z.of_nat (offset r') = n).

(** An in-memory source in the manner of [bytes.Reader]: its bytes and
    its offset. *)
Record memFile := {
  mem_data : list Byte.byte;
  mem_pos : nat
}.

(** Its [Read] and [Seek], with faults that can be injected: [read_fault]
    makes the read issued at a given offset fail, [seek_fault] makes the
    seeks of one kind fail. *)
Definition mem_Read (read_fault : nat -> option error) (n : Z) (f : memFile)
  : memFile * (list Byte.byte * option error) :=
  match read_fault (mem_pos f) with
  | Some e => (f, ([], Some e))
  | None =>
      if length (mem_data f) <=? mem_pos f then (f, ([], Some EOF))
      else
        let p := firstn (Z.to_nat n) (skipn (mem_pos f) (mem_data f)) in
        ({| mem_data := mem_data f; mem_pos := mem_pos f + length p |},
         (p, None))
  end.

Definition mem_Seek (seek_fault : whence -> option error)
    (off : Z) (wh : whence) (f : memFile) : memFile * (Z * option error) :=
  match seek_fault wh with
  | Some e => (f, (0%Z, Some e))
  | None =>
      let abs := (seek_base mem_data mem_pos wh f + off)%Z in
      if (abs <? 0)%Z then (f, (0%Z, Some "negative position"%string))
      else ({| mem_data := mem_data f; mem_pos := Z.to_nat abs |}, (abs, None))
  end.

Definition memReadSeeker (seek_fault : whence -> option error)
    (read_fault : nat -> option error) : ReadSeeker memFile :=
  {| Read := mem_Read read_fault; Seek := mem_Seek seek_fault |}.

(** A source without faults. *)
Definition bytesReader : ReadSeeker memFile :=
  memReadSeeker (fun _ => None) (fun _ => None).

Definition error_eqb (a b : error) : bool := String.eqb a b.

Section Copy.
Variable env : Env.
Context {R : Type} {RS : ReadSeeker R}.

(** The loop of [io.copyBuffer], for a source without [WriteTo] and a
    destination without [ReadFrom] (the encoders' writers have none):
    [dst p] is the call [dst.Write(p)], [buflen] is [len(buf)]. *)
Fixpoint copy_loop (fuel : nat) (dst : list Byte.byte -> event)
    (buflen : Z) (src : R) (written : Z) : M (R * (Z * option error)) :=
  match fuel with
  | 0 => out_of_fuel
  | S fuel' =>
      let '(src, (p, er)) := Read buflen src in
      let nr := Z.of_nat (length p) in
      ' (written, brk) <-
        (if (0 <? nr)%Z then
           ' (nw, ew) <- write env (dst p) ;;
           let '(nw, ew) :=
             if (nw <? 0)%Z || (nr <? nw)%Z then
               (0%Z, match ew with
                     | None => Some errInvalidWrite
                     | Some e => Some e
                     end)
             else (nw, ew) in
           let written := (written + nw)%Z in
           match ew with
           | Some e => ret (written, Some e)
           | None =>
               if negb (nr =? nw)%Z then ret (written, Some ErrShortWrite)
               else ret (written, None)
           end
         else ret (written, None)) ;;
      match brk with
      | Some e => ret (src, (written, Some e))
      | None =>
          match er with
          | Some e =>
              ret (src, (written, if error_eqb e EOF then None else Some e))
          | None => copy_loop fuel' dst buflen src written
          end
      end
  end.

(** [io.Copy(dst, src)]: the buffer it allocates has [32 * 1024] bytes. *)
Definition io_Copy (fuel : nat) (dst : list Byte.byte -> event) (src : R)
  : M (R * (Z * option error)) :=
  copy_loop fuel dst (32 * 1024) src 0.

(** [io.CopyBuffer(dst, src, buf)] with a non-nil [buf] of [buflen]
    bytes; an empty one panics. *)
Definition io_CopyBuffer (fuel : nat) (dst : list Byte.byte -> event)
    (src : R) (buflen : Z) : M (R * (Z * option error)) :=
  if (buflen =? 0)%Z then (fun tr => (Panic, tr))
  else copy_loop fuel dst buflen src 0.
End Copy.

(** ** [ZipFile] *)

Module ZipFile.

(** [type ZipFile struct]; a nil pointer or interface is [None]. *)
Record t := {
  Writer : option zipWriter;
  Name : gostring;
  out : option sink
}.

(** The zero value, [new(ZipFile)]. *)
Definition zero : t := {| Writer := None; Name := []; out := None |}.

Section Methods.
Variable env : Env.

(** [func (z *ZipFile) Create(name string) error] *)
Definition Create (z : t) (name : gostring) : M (t * option error) :=
  let name := zipName name in
  let z := {| Writer := Writer z; Name := name; out := out z |} in
  fe <- os_Create env (Name z) ;;
  match fe with
  | inr err => ret (z, Some err)
  | inl file =>
      ret ({| Writer := Some (zip_NewWriter file);
              Name := Name z; out := out z |}, None)
  end.

(** [func (z *ZipFile) CreateWriter(name string, w io.Writer) error] *)
Definition CreateWriter (z : t) (name : gostring) (w : sink)
  : M (t * option error) :=
  let z := {| Writer := Some (zip_NewWriter w);
              Name := Name z; out := out z |} in
  let z := {| Writer := Writer z; Name := name; out := out z |} in
  ret (z, None).

(** [func (z *ZipFile) AddFile(path string, file io.ReadSeeker) error] *)
Definition AddFile {R} {RS : ReadSeeker R} (fuel : nat)
    (z : t) (path : gostring) (file : R) : M (R * option error) :=
  let header := {| zh_Name := path;
                   zh_Flags := Z.shiftl 1 11;
                   zh_Method := zip_Deflate |} in
  w <- deref (Writer z) ;;
  err <- call env (EvZipCreateHeader w header) ;;
  match err with
  | Some e => ret (file, Some e)
  | None =>
      ' (file, (_, err)) <-
        io_CopyBuffer env fuel (EvZipWrite w) file (128 * 1024) ;;
      ret (file, err)
  end.

(** [func (z *ZipFile) AddDirectory(path string) error] *)
Definition AddDirectory (z : t) (path : gostring) : M (option error) :=
  let path := if negb (HasSuffix path (str "/")) then path ++ str "/"
              else path in
  let header := {| zh_Name := path;
                   zh_Flags := Z.shiftl 1 11;
                   zh_Method := zip_Store |} in
  w <- deref (Writer z) ;;
  call env (EvZipCreateHeader w header).

(** [func (z *ZipFile) Close() error] *)
Definition Close (z : t) : M (option error) :=
  w <- deref (Writer z) ;;
  err <- call env (EvZipClose w) ;;
  _ <- match asCloser (out z) with
       | Some c => call env (EvSinkClose c)
       | None => ret None
       end ;;
  ret err.
End Methods.

End ZipFile.

(** ** [TarFile] *)

Module TarFile.

(** [type TarFile struct] *)
Record t := {
  Writer : option tarWriter;
  Name : gostring;
  GzWriter : option gzipWriter;
  Compressed : bool;
  out : option sink
}.

(** The zero value, [new(TarFile)]. *)
Definition zero : t :=
  {| Writer := None; Name := []; GzWriter := None;
     Compressed := false; out := None |}.

Definition set_Writer (w : option tarWriter) (t0 : t) : t :=
  {| Writer := w; Name := Name t0; GzWriter := GzWriter t0;
     Compressed := Compressed t0; out := out t0 |}.
Definition set_Name (n : gostring) (t0 : t) : t :=
  {| Writer := Writer t0; Name := n; GzWriter := GzWriter t0;
     Compressed := Compressed t0; out := out t0 |}.
Definition set_GzWriter (g : option gzipWriter) (t0 : t) : t :=
  {| Writer := Writer t0; Name := Name t0; GzWriter := g;
     Compressed := Compressed t0; out := out t0 |}.
Definition set_Compressed (c : bool) (t0 : t) : t :=
  {| Writer := Writer t0; Name := Name t0; GzWriter := GzWriter t0;
     Compressed := c; out := out t0 |}.
Definition set_out (o : option sink) (t0 : t) : t :=
  {| Writer := Writer t0; Name := Name t0; GzWriter := GzWriter t0;
     Compressed := Compressed t0; out := o |}.

(** [func (t *TarFile) configureName(name string)] *)
Definition configureName (t0 : t) (name : gostring) : t :=
  let t1 := set_Compressed (HasSuffix name dot_tar_gz) t0 in
  let '(name, t2) :=
    if negb (HasSuffix name dot_tar_gz) && negb (HasSuffix name dot_tar)
    then
      if HasSuffix name dot_zip then
        (Replace name dot_zip dot_tar_gz (-1), set_Compressed true t1)
      else
        (name ++ dot_tar, t1)
    else (name, t1) in
  set_Name name t2.

Section Methods.
Variable env : Env.

(** [func (t *TarFile) Create(name string) error]; the file is created
    at [name], the argument, as line 139 has it. *)
Definition Create (t0 : t) (name : gostring) : M (t * option error) :=
  let t1 := configureName t0 name in
  fe <- os_Create env name ;;
  match fe with
  | inr err => ret (t1, Some err)
  | inl file =>
      let t2 :=
        if Compressed t1 then
          let g := gzip_NewWriter file in
          set_Writer (Some (tar_NewWriter (ToGzip g)))
            (set_GzWriter (Some g) t1)
        else set_Writer (Some (tar_NewWriter (ToSink file))) t1 in
      ret (set_out (Some file) t2, None)
  end.

(** [func (t *TarFile) CreateWriter(name string, w io.Writer) error] *)
Definition CreateWriter (t0 : t) (name : gostring) (w : sink)
  : M (t * option error) :=
  let t1 := configureName t0 name in
  let t2 :=
    if Compressed t1 then
      let g := gzip_NewWriter w in
      set_Writer (Some (tar_NewWriter (ToGzip g)))
        (set_GzWriter (Some g) t1)
    else set_Writer (Some (tar_NewWriter (ToSink w))) t1 in
  ret (set_out (Some w) t2, None).

(** [func (t *TarFile) AddFile(path string, file io.ReadSeeker) error] *)
Definition AddFile {R} {RS : ReadSeeker R} (fuel : nat)
    (t0 : t) (path : gostring) (file : R) : M (R * option error) :=
  let '(file, (size, err)) := Seek 0 SeekEnd file in
  match err with
  | Some e => ret (file, Some e)
  | None =>
      let '(file, (_, err)) := Seek 0 SeekStart file in
      match err with
      | Some e => ret (file, Some e)
      | None =>
          now <- time_Now env ;;
          let header := {| th_Name := path;
                           th_Typeflag := tar_TypeReg;
                           th_Size := size;
                           th_Mode := 438;   (* 0666 *)
                           th_ModTime := now |} in
          w <- deref (Writer t0) ;;
          err <- call env (EvTarWriteHeader w header) ;;
          match err with
          | Some e => ret (file, Some e)
          | None =>
              ' (file, (_, err)) <- io_Copy env fuel (EvTarWrite w) file ;;
              ret (file, err)
          end
      end
  end.

(** [func (t *TarFile) AddDirectory(path string) error] *)
Definition AddDirectory (t0 : t) (path : gostring) : M (option error) :=
  let path := if negb (HasSuffix path (str "/")) then path ++ str "/"
              else path in
  now <- time_Now env ;;
  let header := {| th_Name := path;
                   th_Typeflag := tar_TypeDir;
                   th_Size := 0;
                   th_Mode := Z.lor 511 os_ModeDir;   (* 0777 | ModeDir *)
                   th_ModTime := now |} in
  w <- deref (Writer t0) ;;
  call env (EvTarWriteHeader w header).

(** [func (t *TarFile) Close() error] *)
Definition Close (t0 : t) : M (option error) :=
  w <- deref (Writer t0) ;;
  err <- call env (EvTarClose w) ;;
  match err with
  | Some e => ret (Some e)
  | None =>
      err <- (if Compressed t0 then
                g <- deref (GzWriter t0) ;;
                call env (EvGzipClose g)
              else ret err) ;;
      match err with
      | Some e => ret (Some e)
      | None =>
          _ <- match asCloser (out t0) with
               | Some c => call env (EvSinkClose c)
               | None => ret None
               end ;;
          ret err
      end
  end.
End Methods.

End TarFile.

(** ** The [Archivex] interface *)

Module Archivex.

(** [type Archivex interface], implemented by [*ZipFile] and [*TarFile]. *)
Class t (A : Type) := {
  Create : Env -> A -> gostring -> M (A * option error);
  CreateWriter : Env -> A -> gostring -> sink -> M (A * option error);
  AddFile : Env -> forall R, ReadSeeker R ->
            nat -> A -> gostring -> R -> M (R * option error);
  AddDirectory : Env -> A -> gostring -> M (option error);
  Close : Env -> A -> M (option error)
}.

End Archivex.

#[export] Instance ZipFile_Archivex : Archivex.t ZipFile.t := {|
  Archivex.Create := ZipFile.Create;
  Archivex.CreateWriter := fun _ => ZipFile.CreateWriter;
  Archivex.AddFile := fun env R RS => ZipFile.AddFile env (RS := RS);
  Archivex.AddDirectory := ZipFile.AddDirectory;
  Archivex.Close := ZipFile.Close
|}.

#[export] Instance TarFile_Archivex : Archivex.t TarFile.t := {|
  Archivex.Create := TarFile.Create;
  Archivex.CreateWriter := fun _ => TarFile.CreateWriter;
  Archivex.AddFile := fun env R RS => TarFile.AddFile env (RS := RS);
  Archivex.AddDirectory := TarFile.AddDirectory;
  Archivex.Close := TarFile.Close
|}.

(** ** [AddAll] *)

Module Tree.

(** Modelled from the spec: the file system that [AddAll] traverses, which
    no code of [archivex.go] describes.  A traversal finds at a path a
    regular file with its bytes, a directory with its entries in the order
    the traversal lists them, or an entry that cannot be read, which makes
    the traversal fail. *)
#[warnings="-register-all"] Inductive fsnode :=
| RegularFile (name : gostring) (data : list Byte.byte)
| Directory (name : gostring) (children : list fsnode)
| Unreadable (name : gostring) (err : error).

(** Modelled from the spec: entry names, absent from [archivex.go], join
    the path segments with a forward slash. *)
Fixpoint joinSlash (segments : list gostring) : gostring :=
  match segments with
  | [] => []
  | [x] => x
  | x :: rest => x ++ str "/" ++ joinSlash rest
  end.

(** Modelled from the spec: what is to be added, in traversal order; the
    listing is absent from [archivex.go]. *)
Inductive entry :=
| DirEntry (path : gostring)
| FileEntry (path : gostring) (data : list Byte.byte)
| BadEntry (err : error).



(** The number of file system entries in a tree. *)
Fixpoint size (n : fsnode) : nat :=
  match n with
  | Directory _ children => S (list_sum (map size children))
  | _ => 1
  end.

Section AddAll.
Variable env : Env.
Context {A : Type} {AX : Archivex.t A}.

(** Modelled from the spec: the visit of a regular file, absent from
    [archivex.go].  The file is opened as a seekable byte source at offset
    0 and handed to [AddFile]. *)
Definition addFileAt (a : A) (path : gostring) (data : list Byte.byte)
  : M (option error) :=
  ' (_, err) <-
    Archivex.AddFile env bytesReader (2 + length data) a path
      {| mem_data := data; mem_pos := 0 |} ;;
  ret err.

(** Modelled from the spec: the recursive visit, absent from
    [archivex.go].  [prefix] holds the segments of the directories above
    the entry. *)
Fixpoint visit (a : A) (prefix : list gostring) (n : fsnode)
  : M (option error) :=
  match n with
  | Unreadable _ err => ret (Some err)
  | RegularFile name data => addFileAt a (joinSlash (prefix ++ [name])) data
  | Directory name children =>
      err <- Archivex.AddDirectory env a (joinSlash (prefix ++ [name])) ;;
      match err with
      | Some e => ret (Some e)
      | None =>
          (fix visitAll (l : list fsnode) : M (option error) :=
             match l with
             | [] => ret None
             | c :: l' =>
                 err <- visit a (prefix ++ [name]) c ;;
                 match err with
                 | Some e => ret (Some e)
                 | None => visitAll l'
                 end
             end) children
      end
  end.

(** Modelled from the spec: the visit of the entries of a directory, absent
    from [archivex.go]. *)
Fixpoint visitAll (a : A) (prefix : list gostring) (l : list fsnode)
  : M (option error) :=
  match l with
  | [] => ret None
  | c :: l' =>
      err <- visit a prefix c ;;
      match err with
      | Some e => ret (Some e)
      | None => visitAll a prefix l'
      end
  end.

(** Modelled from the spec: [AddAll] is not in [archivex.go], which has
    only the [ArchiveWriteFunc] type its comment mentions.  Following
    section 4.4: every entry under the root is visited, a directory is
    added with [AddDirectory] and a regular file with [AddFile], under
    slash-separated relative names, and the first traversal or add
    error ends the traversal and is returned. *)
Definition AddAll (root : fsnode) (includeRoot : bool) (a : A)
  : M (option error) :=
  match root with
  | Directory _ children =>
      if includeRoot then visit a [] root else visitAll a [] children
  | _ => visit a [] root
  end.

(** Adding a listed entry, and adding a list of them up to the first
    error. *)
Definition addEntry (a : A) (e : entry) : M (option error) :=
  match e with
  | DirEntry path => Archivex.AddDirectory env a path
  | FileEntry path data => addFileAt a path data
  | BadEntry err => ret (Some err)
  end.

Fixpoint addEntries (a : A) (es : list entry) : M (option error) :=
  match es with
  | [] => ret None
  | e :: es' =>
      err <- addEntry a e ;;
      match err with
      | Some x => ret (Some x)
      | None => addEntries a es'
      end
  end.
End AddAll.

End Tree.

(** ** Environments and checks used in the statements below *)

(** A pattern no proper suffix of which is one of its prefixes: two of its
    instances in a string never overlap. *)
Definition border_free (old : gostring) : bool :=
  forallb (fun d => negb (HasPrefix old (skipn d old)))
          (seq 1 (length old - 1)).

(** The bytes a [Write] call carries. *)
Definition payload (ev : event) : list Byte.byte :=
  match ev with
  | EvZipWrite _ p => p
  | EvTarWrite _ p => p
  | _ => []
  end.

(** An environment in which nothing fails and every write is complete. *)
Definition quietEnv : Env := {|
  reply_err := fun _ _ => None;
  reply_n := fun ev _ => Z.of_nat (length (payload ev));
  clock := fun _ => 0%Z
|}.

(** An environment in which closing a sink fails and nothing else does. *)
Definition sinkCloseFails (e : error) : Env := {|
  reply_err := fun ev _ => match ev with
                           | EvSinkClose _ => Some e
                           | _ => None
                           end;
  reply_n := fun ev _ => Z.of_nat (length (payload ev));
  clock := fun _ => 0%Z
|}.

(** Whether the TAR encoder of a handle writes through a gzip encoder. *)
Definition gzipWrapped (t0 : TarFile.t) : bool :=
  match TarFile.Writer t0 with
  | Some (tar_NewWriter (ToGzip _)) => true
  | _ => false
  end.

(** The calls that release a sink: one [Close] when the sink is an
    [io.Closer], none otherwise. *)
Definition sinkRelease (out : option sink) : list event :=
  match asCloser out with
  | Some c => [EvSinkClose c]
  | None => []
  end.

(** What a finished copy from [src], started at the trace [tr], looks
    like: it returned [(src', (n, err))]; the writes it made carry, in
    order, the bytes between the offset it started at and the offset it
    stopped at; every write carries between one and [buflen] bytes; and
    when it returned no error the source is at its end. *)
Definition copied {R} (content : R -> list Byte.byte) (offset : R -> nat)
    (dst : list Byte.byte -> event) (buflen : Z) (src : R) (tr : trace)
    (res : outcome (R * (Z * option error)) * trace)
    (src' : R) (err : option error) (chunks : list (list Byte.byte)) : Prop :=
  (exists n, res = (Ret (src', (n, err)), tr ++ map dst chunks))
  /\ content src' = content src
  /\ offset src' = offset src + length (concat chunks)
  /\ skipn (offset src) (content src)
     = concat chunks ++ skipn (offset src') (content src)
  /\ Forall (fun p => p <> [] /\ (Z.of_nat (length p) <= buflen)%Z) chunks
  /\ (err = None -> length (content src) <= offset src').

(** An environment in which [os.Create] fails and nothing else does. *)
Definition createFails (e : error) : Env := {|
  reply_err := fun ev _ => match ev with
                           | EvOsCreate _ => Some e
                           | _ => None
                           end;
  reply_n := fun ev _ => Z.of_nat (length (payload ev));
  clock := fun _ => 0%Z
|}.

(** An environment in which finalizing the gzip encoder fails and nothing
    else does. *)
Definition gzipCloseFails (e : error) : Env := {|
  reply_err := fun ev _ => match ev with
                           | EvGzipClose _ => Some e
                           | _ => None
                           end;
  reply_n := fun ev _ => Z.of_nat (length (payload ev));
  clock := fun _ => 0%Z
|}.

(** The layering of an open [TarFile]: the TAR encoder writes to the sink
    recorded in [out], through the gzip encoder recorded in [GzWriter] when
    the handle is compressed and directly otherwise. *)
Definition wellLayered (t0 : TarFile.t) : Prop :=
  exists s,
    TarFile.out t0 = Some s
    /\ if TarFile.Compressed t0 then
         TarFile.GzWriter t0 = Some (gzip_NewWriter s)
         /\ TarFile.Writer t0 = Some (tar_NewWriter (ToGzip (gzip_NewWriter s)))
       else TarFile.Writer t0 = Some (tar_NewWriter (ToSink s)).

(** Every [Write] to [dst] is complete and none fails. *)
Definition completeWrites (env : Env) (dst : list Byte.byte -> event) : Prop :=
  forall p tr,
    reply_err env (dst p) tr = None
    /\ reply_n env (dst p) tr = Z.of_nat (length p).

(** The only error a [Read] returns is [io.EOF]. *)
Definition readsUntilEOF {R} (RS : ReadSeeker R) : Prop :=
  forall n r r' p e, Read n r = (r', (p, Some e)) -> e = EOF.

(** * Properties *)

(** ** Strings *)

Lemma eqb_eq (s t : gostring) : eqb s t = true <-> s = t.
Proof.
  revert t; induction s as [|a s IH]; intros [|b t]; simpl;
    try (split; [discriminate | congruence]); try tauto.
  rewrite andb_true_iff, Ascii.eqb_eq, IH.
  split; [intros [-> ->]; reflexivity | intros H; inversion H; auto].
Qed.

Lemma eqb_refl (s : gostring) : eqb s s = true.
Proof. apply eqb_eq; reflexivity. Qed.

Lemma HasPrefix_iff (s p : gostring) :
  HasPrefix s p = true <-> exists r, s = p ++ r.
Proof.
  unfold HasPrefix. rewrite andb_true_iff, Nat.leb_le, eqb_eq. split.
  - intros [_ H]. exists (skipn (length p) s).
    pose proof (firstn_skipn (length p) s) as E. rewrite H in E. auto.
  - intros [r ->]. rewrite length_app. split; [lia|].
    rewrite firstn_app, Nat.sub_diag, firstn_all. simpl. apply app_nil_r.
Qed.

Lemma HasSuffix_iff (s suf : gostring) :
  HasSuffix s suf = true <-> exists p, s = p ++ suf.
Proof.
  unfold HasSuffix. rewrite andb_true_iff, Nat.leb_le, eqb_eq. split.
  - intros [_ H]. exists (firstn (length s - length suf) s).
    pose proof (firstn_skipn (length s - length suf) s) as E.
    rewrite H in E. auto.
  - intros [p ->]. rewrite length_app. split; [lia|].
    replace (length p + length suf - length suf) with (length p + 0) by lia.
    rewrite skipn_app, Nat.add_comm. simpl.
    rewrite skipn_all2 by lia.
    replace (length p - length p) with 0 by lia. reflexivity.
Qed.

Lemma HasSuffix_app (p suf : gostring) : HasSuffix (p ++ suf) suf = true.
Proof. apply HasSuffix_iff. exists p; reflexivity. Qed.

Lemma HasSuffix_app_r (p s suf : gostring) :
  HasSuffix s suf = true -> HasSuffix (p ++ s) suf = true.
Proof.
  rewrite !HasSuffix_iff. intros [q ->]. exists (p ++ q). apply app_assoc.
Qed.

(** An instance that [Index] finds splits the string around it. *)
Lemma Index_Some (old s : gostring) (j : nat) :
  Index s old = Some j ->
  s = firstn j s ++ old ++ skipn (j + length old) s.
Proof.
  revert j; induction s as [|a s IH]; intros j; simpl.
  - destruct (HasPrefix [] old) eqn:E; [|discriminate].
    intros [= <-]. apply HasPrefix_iff in E. destruct E as [r E].
    symmetry in E. apply app_eq_nil in E. destruct E as [-> ->]. reflexivity.
  - destruct (HasPrefix (a :: s) old) eqn:E.
    + intros [= <-]. apply HasPrefix_iff in E. destruct E as [r E].
      simpl firstn. simpl app at 1. rewrite E at 2.
      rewrite skipn_app, Nat.sub_diag, skipn_all. exact E.
    + destruct (Index s old) as [i|] eqn:Ei; [|discriminate].
      simpl. intros [= <-]. simpl. f_equal. apply IH. reflexivity.
Qed.

(** [Index] finds an instance whenever there is one. *)
Lemma Index_complete (old s p r : gostring) :
  s = p ++ old ++ r -> exists j, Index s old = Some j.
Proof.
  revert s; induction p as [|a p IH]; intros s ->.
  - destruct r, old; simpl; try (eexists; reflexivity);
      match goal with
      | |- context [HasPrefix ?x ?y] =>
          assert (HasPrefix x y = true) as ->
            by (apply HasPrefix_iff; eexists; reflexivity)
      end; eexists; reflexivity.
  - simpl app. simpl Index.
    destruct (HasPrefix _ old); [eexists; reflexivity|].
    destruct (IH _ eq_refl) as [j ->]. eexists; reflexivity.
Qed.

(** A border-free pattern cannot overlap itself. *)
Lemma border_free_no_overlap (old x l rest : gostring) :
  border_free old = true ->
  old = l ++ rest -> old = x ++ l -> l <> [] -> rest <> [] -> False.
Proof.
  intros B E1 E2 Hl Hr. unfold border_free in B.
  rewrite forallb_forall in B.
  assert (Hlen : length x = length rest).
  { apply (f_equal (@length _)) in E1, E2. rewrite length_app in E1, E2. lia. }
  assert (Hx : 0 < length x).
  { rewrite Hlen. destruct rest; [congruence | simpl; lia]. }
  assert (Hlt : length x < length old).
  { rewrite E2, length_app. destruct l; [congruence | simpl; lia]. }
  specialize (B (length x)). rewrite in_seq in B.
  assert (HP : HasPrefix old (skipn (length x) old) = true).
  { apply HasPrefix_iff. exists rest.
    rewrite E2 at 2. rewrite skipn_app, Nat.sub_diag, skipn_all. exact E1. }
  rewrite HP in B. simpl in B.
  assert (false = true) by (apply B; lia). discriminate.
Qed.

(** After an instance of a border-free pattern, a string that ends in the
    pattern and goes on past the instance still ends in the pattern. *)
Lemma suffix_after_instance (old pre rest q : gostring) :
  border_free old = true ->
  pre ++ old ++ rest = q ++ old -> rest <> [] ->
  exists q', rest = q' ++ old.
Proof.
  intros B E Hr. rewrite app_assoc in E.
  apply app_eq_app in E. destruct E as [l [[E1 E2] | [E1 E2]]].
  - destruct l as [|c l].
    + exists []. simpl in E2. auto.
    + exfalso.
      assert (Hq : exists x, q = pre ++ x /\ old = x ++ c :: l).
      { assert (Hlen : length pre <= length q).
        { apply (f_equal (@length _)) in E1, E2.
          rewrite !length_app in *. destruct rest; [congruence|].
          simpl in *. lia. }
        exists (skipn (length pre) q). split.
        - pose proof (firstn_skipn (length pre) q) as F.
          apply (f_equal (firstn (length pre))) in E1.
          rewrite firstn_app, Nat.sub_diag, firstn_all in E1. simpl in E1.
          rewrite app_nil_r in E1.
          rewrite firstn_app in E1.
          replace (length pre - length q) with 0 in E1 by lia.
          simpl in E1. rewrite app_nil_r in E1.
          rewrite <- E1 in F. auto.
        - apply (f_equal (skipn (length pre))) in E1.
          rewrite skipn_app, Nat.sub_diag, skipn_all in E1. simpl in E1.
          rewrite skipn_app in E1.
          replace (length pre - length q) with 0 in E1 by lia.
          simpl in E1. exact E1. }
      destruct Hq as [x [_ Hx]].
      apply (@border_free_no_overlap old x (c :: l) rest B);
        auto; discriminate.
  - exists l. exact E2.
Qed.

Lemma Index_nil (old : gostring) : old <> [] -> Index [] old = None.
Proof. destruct old; [congruence | reflexivity]. Qed.

Lemma replace_loop_nil (n : nat) (old new : gostring) :
  old <> [] -> replace_loop n [] old new = [].
Proof.
  intros H. destruct n; cbn [replace_loop]; [|rewrite Index_nil by auto]; auto.
Qed.

(** Replacing every instance of a border-free pattern in a string that ends
    in the pattern gives a string that ends in the replacement. *)
Lemma replace_all_suffix (old new : gostring) :
  old <> [] -> border_free old = true ->
  forall bound s, length s <= bound -> HasSuffix s old = true ->
  HasSuffix (replace_loop (count_loop bound s old) s old new) new = true.
Proof.
  intros Hne B. induction bound as [|b IH]; intros s Hlen Hs.
  - apply HasSuffix_iff in Hs. destruct Hs as [q ->].
    rewrite length_app in Hlen. destruct old; [congruence | simpl in *; lia].
  - pose proof Hs as Hq. apply HasSuffix_iff in Hq. destruct Hq as [q Hq].
    destruct (@Index_complete old s q []) as [j Hj].
    { rewrite app_nil_r. exact Hq. }
    cbn [count_loop]. rewrite Hj. cbn [replace_loop]. rewrite Hj.
    pose proof (Index_Some _ _ Hj) as Hsplit.
    set (rest := skipn (j + length old) s) in *.
    apply HasSuffix_app_r.
    destruct rest as [|c rest'] eqn:Er.
    + replace (count_loop b [] old) with 0.
      * simpl. rewrite app_nil_r. apply HasSuffix_iff. exists []; reflexivity.
      * destruct b; cbn [count_loop]; [|rewrite Index_nil by auto]; reflexivity.
    + apply HasSuffix_app_r. apply IH.
      * apply (f_equal (@length _)) in Hsplit.
        rewrite !length_app in Hsplit. destruct old; [congruence|].
        simpl in *. lia.
      * apply HasSuffix_iff.
        apply (@suffix_after_instance old (firstn j s) (c :: rest') q B);
          [congruence | discriminate].
Qed.

Lemma Replace_all (s old new : gostring) :
  eqb old new = false ->
  Replace s old new (-1) = replace_loop (Count s old) s old new.
Proof.
  intros E. unfold Replace. rewrite E. simpl.
  destruct (Count s old); reflexivity.
Qed.

Lemma Replace_all_suffix (s old new : gostring) :
  old <> [] -> border_free old = true -> eqb old new = false ->
  HasSuffix s old = true -> HasSuffix (Replace s old new (-1)) new = true.
Proof.
  intros. rewrite Replace_all by assumption.
  apply replace_all_suffix; auto.
Qed.

(** When the only instance of the pattern is the suffix, replacing every
    instance replaces the suffix. *)
Lemma Replace_single (p old new : gostring) :
  old <> [] -> eqb old new = false ->
  Index (p ++ old) old = Some (length p) ->
  Replace (p ++ old) old new (-1) = p ++ new.
Proof.
  intros Hne E Hi. rewrite Replace_all by assumption. unfold Count.
  assert (Hrest : skipn (length p + length old) (p ++ old) = []).
  { apply skipn_all2. rewrite length_app. lia. }
  destruct (length (p ++ old)) as [|b] eqn:El.
  { rewrite length_app in El. destruct old; [congruence | simpl in El; lia]. }
  cbn [count_loop]. rewrite Hi, Hrest.
  replace (count_loop b [] old) with 0
    by (destruct b; cbn [count_loop]; [|rewrite Index_nil by auto]; reflexivity).
  cbn [replace_loop]. rewrite Hi, Hrest.
  rewrite firstn_app, Nat.sub_diag, firstn_all. simpl.
  rewrite !app_nil_r. reflexivity.
Qed.

(** ** Destination names *)

Lemma not_HasSuffix_last (s suf p q : gostring) (a b : ascii) :
  a <> b -> s = p ++ [a] -> suf = q ++ [b] -> HasSuffix s suf = false.
Proof.
  intros Hab -> ->. destruct (HasSuffix _ _) eqn:E; [|reflexivity].
  apply HasSuffix_iff in E. destruct E as [r E].
  rewrite app_assoc in E. apply app_inj_tail in E. destruct E; congruence.
Qed.

Lemma tar_not_tar_gz (name : gostring) :
  HasSuffix (name ++ dot_tar) dot_tar_gz = false.
Proof.
  apply (@not_HasSuffix_last _ _ (name ++ str ".ta") (str ".tar.g")
           "r"%char "z"%char).
  - discriminate.
  - rewrite <- app_assoc. reflexivity.
  - reflexivity.
Qed.

(** The ZIP name always ends in [".zip"]. *)
Lemma zipName_suffix (name : gostring) :
  HasSuffix (zipName name) dot_zip = true.
Proof.
  unfold zipName. destruct (HasSuffix name dot_zip) eqn:E1; simpl; [exact E1|].
  destruct (HasSuffix name dot_tar_gz) eqn:E2.
  - apply Replace_all_suffix; auto. discriminate.
  - apply HasSuffix_app.
Qed.

(** What [configureName] leaves in the handle: a name that ends in
    [".tar"] or [".tar.gz"], and a flag that says which. *)
Lemma configureName_suffix (t0 : TarFile.t) (name : gostring) :
  let t1 := TarFile.configureName t0 name in
  (HasSuffix (TarFile.Name t1) dot_tar = true
   \/ HasSuffix (TarFile.Name t1) dot_tar_gz = true)
  /\ TarFile.Compressed t1 = HasSuffix (TarFile.Name t1) dot_tar_gz.
Proof.
  unfold TarFile.configureName.
  destruct (HasSuffix name dot_tar_gz) eqn:E1; simpl.
  - rewrite E1. auto.
  - destruct (HasSuffix name dot_tar) eqn:E2; simpl.
    + rewrite E1. auto.
    + destruct (HasSuffix name dot_zip) eqn:E3; simpl.
      * assert (H : HasSuffix (Replace name dot_zip dot_tar_gz (-1)) dot_tar_gz
                    = true)
          by (apply Replace_all_suffix; auto; discriminate).
        rewrite H. auto.
      * rewrite tar_not_tar_gz. split; [left; apply HasSuffix_app | reflexivity].
Qed.

(** On a name that already ends in [".tar"] or [".tar.gz"],
    [configureName] keeps the name and reads the flag off it. *)
Lemma configureName_fixed (t0 : TarFile.t) (name : gostring) :
  HasSuffix name dot_tar = true \/ HasSuffix name dot_tar_gz = true ->
  TarFile.Name (TarFile.configureName t0 name) = name
  /\ TarFile.Compressed (TarFile.configureName t0 name)
     = HasSuffix name dot_tar_gz.
Proof.
  intros H. unfold TarFile.configureName.
  destruct (HasSuffix name dot_tar_gz) eqn:E1; simpl; auto.
  destruct (HasSuffix name dot_tar) eqn:E2; simpl; auto.
  destruct H; discriminate.
Qed.

(** C6 (the code at the failing input): [ZipFile.Create] with the name
    ["a.tar.gz.tar.gz"] stores ["a.zip.zip"]: every [".tar.gz"] of the name
    is rewritten, not only the trailing one, which would give
    ["a.tar.gz.zip"]. *)
Theorem ZipFile_Create_rewrites_every_tar_gz :
  forall env z tr,
  exists z' err tr',
    ZipFile.Create env z (str "a.tar.gz.tar.gz") tr = (Ret (z', err), tr')
    /\ ZipFile.Name z' = str "a.zip.zip"
    /\ ZipFile.Name z' <> str "a.tar.gz" ++ dot_zip.
Proof.
  intros env z tr. unfold ZipFile.Create, os_Create, call, bind, ret.
  change (zipName (str "a.tar.gz.tar.gz")) with (str "a.zip.zip").
  cbn [ZipFile.Name].
  destruct (reply_err env (EvOsCreate (str "a.zip.zip")) tr);
    do 3 eexists; (split; [reflexivity | split; [reflexivity | discriminate]]).
Qed.

(** C5 (the code at the failing input): [configureName] with the name
    ["a.zip.zip"] stores ["a.tar.gz.tar.gz"]: every [".zip"] of the name is
    replaced, not only the suffix, which would give ["a.zip.tar.gz"]. *)
Theorem TarFile_configureName_replaces_every_zip :
  forall t0,
    TarFile.Name (TarFile.configureName t0 (str "a.zip.zip"))
    = str "a.tar.gz.tar.gz"
    /\ TarFile.Name (TarFile.configureName t0 (str "a.zip.zip"))
       <> str "a.zip" ++ dot_tar_gz
    /\ TarFile.Compressed (TarFile.configureName t0 (str "a.zip.zip")) = true.
Proof.
  intros t0. split; [reflexivity | split; [discriminate | reflexivity]].
Qed.

(** [TarFile.Create] opens the file under the name it was given, not under
    the name it stores: [Create("out.zip")] stores ["out.tar.gz"] and
    creates ["out.zip"]. *)
Lemma TarFile_Create_opens_argument :
  forall env t0 name tr,
    snd (TarFile.Create env t0 name tr) = tr ++ [EvOsCreate name].
Proof.
  intros. unfold TarFile.Create, os_Create, call, bind, ret.
  destruct (reply_err env (EvOsCreate name) tr); reflexivity.
Qed.

Example TarFile_Create_out_zip :
  exists t1,
    TarFile.Create quietEnv TarFile.zero (str "out.zip") []
    = (Ret (t1, None), [EvOsCreate (str "out.zip")])
    /\ TarFile.Name t1 = str "out.tar.gz"
    /\ TarFile.Compressed t1 = true.
Proof. eexists. split; [reflexivity | split; reflexivity]. Qed.

Example zipName_out : zipName (str "out") = str "out.zip".
Proof. reflexivity. Qed.

Example zipName_tgz : zipName (str "out.tar.gz") = str "out.zip".
Proof. reflexivity. Qed.

(** C9: destination-name normalization is idempotent for both formats: the
    ZIP rule returns a name it has produced unchanged, and the TAR rule
    applied to a name it has produced keeps the name and the compressed
    flag. *)
Theorem naming_idempotent :
  forall name,
    zipName (zipName name) = zipName name
    /\ forall t0 t1,
         let a := TarFile.configureName t0 name in
         let b := TarFile.configureName t1 (TarFile.Name a) in
         TarFile.Name b = TarFile.Name a
         /\ TarFile.Compressed b = TarFile.Compressed a.
Proof.
  intros name. split.
  - unfold zipName at 1. rewrite zipName_suffix. reflexivity.
  - intros t0 t1 a b.
    destruct (configureName_suffix t0 name) as [Hs Hc]. fold a in Hs, Hc.
    destruct (@configureName_fixed t1 _ Hs) as [Hn Hc']. fold b in Hn, Hc'.
    split; congruence.
Qed.

(** C10: after a successful [TarFile.Create] or [TarFile.CreateWriter] the
    stored name ends in [".tar"] or [".tar.gz"], the compressed flag is set
    exactly when it ends in [".tar.gz"], and the TAR encoder writes through
    a gzip encoder exactly when the flag is set. *)
Theorem TarFile_Create_invariant :
  forall env t0 name tr t1 tr',
    TarFile.Create env t0 name tr = (Ret (t1, None), tr')
    \/ (exists w, TarFile.CreateWriter t0 name w tr = (Ret (t1, None), tr')) ->
    (HasSuffix (TarFile.Name t1) dot_tar = true
     \/ HasSuffix (TarFile.Name t1) dot_tar_gz = true)
    /\ (TarFile.Compressed t1 = true
        <-> HasSuffix (TarFile.Name t1) dot_tar_gz = true)
    /\ gzipWrapped t1 = TarFile.Compressed t1.
Proof.
  intros env t0 name tr t1 tr' H.
  destruct (configureName_suffix t0 name) as [Hs Hc].
  assert (E : exists w,
    t1 = TarFile.set_out (Some w)
           (if TarFile.Compressed (TarFile.configureName t0 name) then
              TarFile.set_Writer
                (Some (tar_NewWriter (ToGzip (gzip_NewWriter w))))
                (TarFile.set_GzWriter (Some (gzip_NewWriter w))
                   (TarFile.configureName t0 name))
            else TarFile.set_Writer (Some (tar_NewWriter (ToSink w)))
                   (TarFile.configureName t0 name))).
  { destruct H as [H | [w H]].
    - unfold TarFile.Create, os_Create, call, bind, ret in H.
      destruct (reply_err env (EvOsCreate name) tr); [discriminate|].
      exists (OsFile name). congruence.
    - unfold TarFile.CreateWriter, ret in H. exists w. congruence. }
  destruct E as [w ->]. revert Hs Hc.
  generalize (TarFile.configureName t0 name). intros c Hs Hc.
  destruct (TarFile.Compressed c) eqn:Ec; unfold gzipWrapped; simpl;
    rewrite ?Ec;
    (split; [exact Hs | split; [rewrite <- Hc; tauto | reflexivity]]).
Qed.

Lemma TarFile_Create_invariant_witness :
  let t1 := TarFile.set_out (Some (OsFile (str "out.zip")))
              (TarFile.set_Writer
                 (Some (tar_NewWriter
                          (ToGzip (gzip_NewWriter (OsFile (str "out.zip"))))))
                 (TarFile.set_GzWriter
                    (Some (gzip_NewWriter (OsFile (str "out.zip"))))
                    (TarFile.configureName TarFile.zero (str "out.zip")))) in
  TarFile.Create quietEnv TarFile.zero (str "out.zip") []
  = (Ret (t1, None), [EvOsCreate (str "out.zip")])
  /\ (HasSuffix (TarFile.Name t1) dot_tar = true
      \/ HasSuffix (TarFile.Name t1) dot_tar_gz = true)
  /\ (TarFile.Compressed t1 = true
      <-> HasSuffix (TarFile.Name t1) dot_tar_gz = true)
  /\ gzipWrapped t1 = TarFile.Compressed t1.
Proof.
  intros t1. split; [reflexivity|].
  apply (@TarFile_Create_invariant quietEnv TarFile.zero (str "out.zip") []
           t1 [EvOsCreate (str "out.zip")]).
  left. reflexivity.
Defined.

(** C3 (counterexample): [TarFile.CreateWriter] does not store the name as
    it is given: for ["out.zip"] it stores ["out.tar.gz"] and sets the
    compressed flag. *)
Lemma TarFile_CreateWriter_rewrites_name :
  ~ (forall t0 name w tr t1 tr',
       TarFile.CreateWriter t0 name w tr = (Ret (t1, None), tr') ->
       TarFile.Name t1 = name
       /\ TarFile.Compressed t1 = TarFile.Compressed t0).
Proof.
  intros H.
  destruct (H TarFile.zero (str "out.zip") (UserWriter 0 false) [] _ _ eq_refl)
    as [Hn _].
  discriminate Hn.
Qed.

(** C3 (amended): [CreateWriter] performs no I/O and always succeeds;
    [ZipFile.CreateWriter] stores the name unchanged and binds a ZIP encoder
    to the sink; [TarFile.CreateWriter] stores the name and the compressed
    flag that [configureName] computes, as [Create] does. *)
Theorem CreateWriter_names :
  forall name w tr,
    (forall z0, exists z1,
        ZipFile.CreateWriter z0 name w tr = (Ret (z1, None), tr)
        /\ ZipFile.Name z1 = name
        /\ ZipFile.Writer z1 = Some (zip_NewWriter w))
    /\ (forall t0, exists t1,
        TarFile.CreateWriter t0 name w tr = (Ret (t1, None), tr)
        /\ TarFile.Name t1 = TarFile.Name (TarFile.configureName t0 name)
        /\ TarFile.Compressed t1
           = TarFile.Compressed (TarFile.configureName t0 name)
        /\ TarFile.out t1 = Some w).
Proof.
  intros name w tr. split.
  - intros z0. eexists. split; [reflexivity|]. split; reflexivity.
  - intros t0. eexists. split; [reflexivity|].
    destruct (TarFile.Compressed (TarFile.configureName t0 name)) eqn:E;
      simpl; rewrite ?E; auto.
Qed.

(** ** Closing *)

(** No method of [ZipFile] assigns [out]: a handle made from the zero value
    by [Create] or [CreateWriter] has a nil [out]. *)
Lemma ZipFile_out_never_set :
  forall env name w tr,
    (forall z1 err tr', ZipFile.Create env ZipFile.zero name tr
                        = (Ret (z1, err), tr') -> ZipFile.out z1 = None)
    /\ (forall z1 err tr', ZipFile.CreateWriter ZipFile.zero name w tr
                           = (Ret (z1, err), tr') -> ZipFile.out z1 = None).
Proof.
  intros env name w tr. split; intros z1 err tr'.
  - unfold ZipFile.Create, os_Create, call, bind, ret.
    destruct (reply_err env _ tr); intros [= <- _ _]; reflexivity.
  - unfold ZipFile.CreateWriter, ret. intros [= <- _ _]. reflexivity.
Qed.

(** What [ZipFile.Close] does on a handle with an encoder: it finalizes the
    encoder, releases [out] when it is an [io.Closer], and returns the
    encoder's error whatever the release returned. *)
Lemma ZipFile_Close_run :
  forall env z w tr,
    ZipFile.Writer z = Some w ->
    ZipFile.Close env z tr
    = (Ret (reply_err env (EvZipClose w) tr),
       tr ++ [EvZipClose w] ++ sinkRelease (ZipFile.out z)).
Proof.
  intros env z w tr Hw.
  unfold ZipFile.Close, sinkRelease, bind, deref, call, ret. rewrite Hw.
  destruct (asCloser (ZipFile.out z)); simpl.
  - rewrite <- app_assoc. reflexivity.
  - reflexivity.
Qed.

(** C1 (the code at the failing input): after [Create("out")] on a new
    [ZipFile], [Close] finalizes the encoder and returns, and the file that
    [Create] opened, which has a [Close] method, is never released. *)
Theorem ZipFile_Close_leaves_file_open :
  let file := OsFile (str "out.zip") in
  let z1 := {| ZipFile.Writer := Some (zip_NewWriter file);
               ZipFile.Name := str "out.zip";
               ZipFile.out := None |} in
  ZipFile.Create quietEnv ZipFile.zero (str "out") []
  = (Ret (z1, None), [EvOsCreate (str "out.zip")])
  /\ ZipFile.Close quietEnv z1 [EvOsCreate (str "out.zip")]
     = (Ret None, [EvOsCreate (str "out.zip");
                   EvZipClose (zip_NewWriter file)])
  /\ implementsCloser file = true.
Proof. repeat split. Qed.

(** The sibling path: [TarFile.Create] records the file in [out], and
    [TarFile.Close] releases it. *)
Example TarFile_Close_releases_file :
  let file := OsFile (str "out.tar") in
  exists t1,
    TarFile.Create quietEnv TarFile.zero (str "out.tar") []
    = (Ret (t1, None), [EvOsCreate (str "out.tar")])
    /\ TarFile.Close quietEnv t1 [EvOsCreate (str "out.tar")]
       = (Ret None, [EvOsCreate (str "out.tar");
                     EvTarClose (tar_NewWriter (ToSink file));
                     EvSinkClose file]).
Proof. eexists. split; reflexivity. Qed.

(** C4 (counterexample): when releasing the sink fails, [TarFile.Close]
    does not return that error: it returns nil. *)
Lemma TarFile_Close_drops_release_error :
  ~ (forall env t0 tr w c e,
       TarFile.Writer t0 = Some w ->
       TarFile.Compressed t0 = false ->
       asCloser (TarFile.out t0) = Some c ->
       reply_err env (EvTarClose w) tr = None ->
       reply_err env (EvSinkClose c) (tr ++ [EvTarClose w]) = Some e ->
       fst (TarFile.Close env t0 tr) = Ret (Some e)).
Proof.
  intros H.
  specialize (H (sinkCloseFails "disk full"%string)
                {| TarFile.Writer :=
                     Some (tar_NewWriter (ToSink (UserWriter 0 true)));
                   TarFile.Name := str "a.tar";
                   TarFile.GzWriter := None;
                   TarFile.Compressed := false;
                   TarFile.out := Some (UserWriter 0 true) |}
                [] _ _ "disk full"%string
                eq_refl eq_refl eq_refl eq_refl eq_refl).
  discriminate H.
Qed.

(** C4 (amended): [TarFile.Close] finalizes the TAR encoder first and
    returns its error at once, calling nothing else; with a gzip wrapper it
    then finalizes the gzip encoder and returns its error at once, without
    releasing the sink; otherwise it releases the sink when the sink is an
    [io.Closer] and returns nil, whatever the release returned. *)
Theorem TarFile_Close_sequence :
  forall env t0 w tr,
    TarFile.Writer t0 = Some w ->
    (TarFile.Compressed t0 = true -> TarFile.GzWriter t0 <> None) ->
    exists err tr',
      TarFile.Close env t0 tr = (Ret err, tr')
      /\ match reply_err env (EvTarClose w) tr with
         | Some e => err = Some e /\ tr' = tr ++ [EvTarClose w]
         | None =>
             if TarFile.Compressed t0 then
               forall g, TarFile.GzWriter t0 = Some g ->
                 match reply_err env (EvGzipClose g) (tr ++ [EvTarClose w]) with
                 | Some e =>
                     err = Some e /\ tr' = tr ++ [EvTarClose w; EvGzipClose g]
                 | None =>
                     err = None
                     /\ tr' = tr ++ [EvTarClose w; EvGzipClose g]
                                 ++ sinkRelease (TarFile.out t0)
                 end
             else
               err = None
               /\ tr' = tr ++ [EvTarClose w] ++ sinkRelease (TarFile.out t0)
         end.
Proof.
  intros env t0 w tr Hw Hg.
  unfold TarFile.Close, sinkRelease, bind, deref, call, ret. rewrite Hw.
  destruct (reply_err env (EvTarClose w) tr) as [e|] eqn:E1.
  { do 2 eexists. split; [reflexivity | auto]. }
  destruct (TarFile.Compressed t0) eqn:Ec.
  - destruct (TarFile.GzWriter t0) as [g|] eqn:Eg;
      [|exfalso; apply Hg; reflexivity].
    destruct (reply_err env (EvGzipClose g) ((tr ++ [EvTarClose w]))) as [e|]
      eqn:E2.
    + do 2 eexists. split; [reflexivity|]. intros g' [= <-]. rewrite E2.
      rewrite <- app_assoc. auto.
    + destruct (asCloser (TarFile.out t0)); do 2 eexists;
        (split; [reflexivity|]); intros g' [= <-]; rewrite E2;
        rewrite <- !app_assoc; auto.
  - destruct (asCloser (TarFile.out t0)); do 2 eexists;
      (split; [reflexivity|]); rewrite <- ?app_assoc; auto.
Qed.

Lemma TarFile_Close_sequence_witness :
  let out := UserWriter 0 true in
  let g := gzip_NewWriter out in
  let w := tar_NewWriter (ToGzip g) in
  let t0 := {| TarFile.Writer := Some w;
               TarFile.Name := str "a.tar.gz";
               TarFile.GzWriter := Some g;
               TarFile.Compressed := true;
               TarFile.out := Some out |} in
  TarFile.CreateWriter TarFile.zero (str "a.tar.gz") out [] = (Ret (t0, None), [])
  /\ exists err tr',
      TarFile.Close quietEnv t0 [] = (Ret err, tr')
      /\ err = None
      /\ tr' = [EvTarClose w; EvGzipClose g; EvSinkClose out].
Proof.
  intros out g w t0. split; [reflexivity|].
  destruct (@TarFile_Close_sequence quietEnv t0 w [] eq_refl
              ltac:(discriminate)) as [err [tr' [H1 H2]]].
  exists err, tr'. split; [exact H1|].
  exact (H2 g eq_refl).
Defined.

(** ** Copying *)

Lemma error_eqb_eq (a b : error) : error_eqb a b = true -> a = b.
Proof. apply String.eqb_eq. Qed.

Section CopyFacts.
Context {R : Type} {RS : ReadSeeker R}.
Variables (content : R -> list Byte.byte) (offset : R -> nat).
Hypothesis law : lawful RS content offset.
Variable env : Env.

(** What one [Read] does to a lawful source. *)
Lemma Read_lawful (n : Z) (r r' : R) (p : list Byte.byte) (er : option error) :
  Read n r = (r', (p, er)) ->
  content r' = content r
  /\ (0 <= n -> Z.of_nat (length p) <= n)%Z
  /\ skipn (offset r) (content r) = p ++ skipn (offset r') (content r)
  /\ offset r' = offset r + length p
  /\ (er = Some EOF -> length (content r) <= offset r')
  /\ (er = None -> (0 < n)%Z -> p <> []).
Proof.
  intros E. destruct law as [LR _].
  destruct (LR _ _ _ _ _ E) as (Hc & Hn & Hp & Ho & He & Hg).
  repeat split; auto.
  rewrite Ho, Nat.add_comm, <- skipn_skipn.
  pose proof (firstn_skipn (length p) (skipn (offset r) (content r))) as F.
  rewrite <- Hp in F. auto.
Qed.

(** The copy loop on a lawful source, with fuel for one read more than the
    bytes that remain, finishes. *)
Lemma copy_loop_spec (dst : list Byte.byte -> event) (buflen : Z) :
  (0 < buflen)%Z ->
  forall fuel src written tr,
    length (content src) - offset src < fuel ->
    exists src' err chunks,
      copied content offset dst buflen src tr
        (copy_loop env fuel dst buflen src written tr) src' err chunks.
Proof.
  intros Hbuf. induction fuel as [|fuel IH]; intros src written tr Hfuel;
    [lia|].
  cbn [copy_loop].
  destruct (Read buflen src) as [src1 [p er]] eqn:ER.
  destruct (Read_lawful _ _ ER) as (Hc & Hn & Hp & Ho & He & Hg).
  specialize (Hn ltac:(lia)).
  (* the loop stops after this read, having written [p] or nothing *)
  assert (Hstop : forall n e,
            (e = None -> er = Some EOF) ->
            copied content offset dst buflen src tr
              (Ret (src1, (n, e)), tr ++ map dst (if (0 <? Z.of_nat (length p))%Z then [p] else []))
              src1 e (if (0 <? Z.of_nat (length p))%Z then [p] else [])).
  { intros n e Hend. split; [eexists; reflexivity|].
    destruct (0 <? Z.of_nat (length p))%Z eqn:Epos.
    - simpl. rewrite !app_nil_r. repeat split; auto.
      constructor; [|constructor]. split; [|exact Hn].
      intros ->. simpl in Epos. discriminate.
    - assert (p = []) as -> by (destruct p; [reflexivity | discriminate]).
      simpl in *. rewrite Nat.add_0_r in *. repeat split; auto. }
  unfold bind at 1.
  destruct (0 <? Z.of_nat (length p))%Z eqn:Epos.
  - unfold bind at 1, write at 1.
    set (tr1 := tr ++ [dst p]) in *.
    destruct ((reply_n env (dst p) tr <? 0)%Z
              || (Z.of_nat (length p) <? reply_n env (dst p) tr)%Z) eqn:Ebad.
    + destruct (reply_err env (dst p) tr); unfold ret;
        do 3 eexists; apply Hstop; discriminate.
    + destruct (reply_err env (dst p) tr) as [e|]; unfold ret.
      { do 3 eexists; apply Hstop; discriminate. }
      destruct (Z.of_nat (length p) =? reply_n env (dst p) tr)%Z;
        cbn [negb]; unfold ret; cbv beta iota.
      2:{ do 3 eexists; apply Hstop; discriminate. }
      destruct er as [e|].
      { do 3 eexists. apply Hstop.
        destruct (error_eqb e EOF) eqn:Ee; [|discriminate].
        apply error_eqb_eq in Ee. subst e. reflexivity. }
      assert (Hp0 : p <> []) by auto.
      assert (Hlt : offset src < length (content src)).
      { destruct (Nat.lt_ge_cases (offset src) (length (content src)));
          [assumption|].
        rewrite skipn_all2 in Hp by assumption.
        symmetry in Hp. apply app_eq_nil in Hp. tauto. }
      destruct (IH src1 (written + reply_n env (dst p) tr)%Z tr1)
        as (src' & err & chunks & [n Hrun] & H1 & H2 & H3 & H4 & H5).
      { rewrite Hc, Ho. destruct p; [congruence | simpl; lia]. }
      exists src', err, (p :: chunks). split.
      { exists n. rewrite Hrun. unfold tr1. simpl.
        rewrite <- app_assoc. reflexivity. }
      rewrite Hc in *. simpl. rewrite length_app. repeat split.
      * exact H1.
      * lia.
      * rewrite <- app_assoc, <- H3. exact Hp.
      * constructor; auto.
      * exact H5.
  - unfold ret at 1.
    destruct er as [e|].
    + unfold ret. do 3 eexists.
      rewrite <- (app_nil_r tr) at 2. apply Hstop.
      destruct (error_eqb e EOF) eqn:Ee; [|discriminate].
      apply error_eqb_eq in Ee. subst e. reflexivity.
    + exfalso. apply (Hg eq_refl Hbuf).
      destruct p; [reflexivity | discriminate].
Qed.

End CopyFacts.

(** The in-memory source keeps the contract, whatever faults are injected,
    as long as no injected read fault is [io.EOF] itself. *)
Lemma memReadSeeker_lawful (seek_fault : whence -> option error)
    (read_fault : nat -> option error) :
  (forall n, read_fault n <> Some EOF) ->
  lawful (memReadSeeker seek_fault read_fault) mem_data mem_pos.
Proof.
  intros Hf. split.
  - intros n r r' p er. cbn [Read memReadSeeker]. unfold mem_Read.
    destruct (read_fault (mem_pos r)) as [e|] eqn:Ef.
    { intros [= <- <- <-]. simpl. rewrite Nat.add_0_r.
      repeat split; try lia; try discriminate.
      intros [= ->]. exfalso. exact (Hf _ Ef). }
    destruct (length (mem_data r) <=? mem_pos r) eqn:El.
    { apply Nat.leb_le in El. intros [= <- <- <-]. simpl.
      rewrite Nat.add_0_r. repeat split; try lia; try discriminate. }
    apply Nat.leb_gt in El. intros [= <- <- <-]. cbn [mem_data mem_pos].
    set (l := skipn (mem_pos r) (mem_data r)).
    assert (Hl : l <> []).
    { unfold l. intros E. apply (f_equal (@length _)) in E.
      rewrite length_skipn in E. simpl in E. lia. }
    repeat split; try discriminate.
    + intros Hn. rewrite length_firstn. lia.
    + rewrite length_firstn.
      destruct (Nat.le_ge_cases (Z.to_nat n) (length l)) as [H|H].
      * rewrite Nat.min_l by assumption. reflexivity.
      * rewrite Nat.min_r by assumption.
        rewrite firstn_all, firstn_all2 by assumption. reflexivity.
    + intros _ Hn E. apply Hl. destruct l; [reflexivity|].
      destruct (Z.to_nat n) eqn:En; [lia | discriminate E].
  - intros off wh r r' n. cbn [Seek memReadSeeker]. unfold mem_Seek.
    destruct (seek_fault wh); [discriminate|].
    destruct (_ <? 0)%Z eqn:E; [discriminate|].
    apply Z.ltb_ge in E. intros [= <- <-]. cbn [mem_data mem_pos].
    repeat split. apply Z2Nat.id. exact E.
Qed.

Lemma bytesReader_lawful : lawful bytesReader mem_data mem_pos.
Proof. apply memReadSeeker_lawful. discriminate. Qed.

(** ** Adding files *)

Section AddFileFacts.
Context {R : Type} {RS : ReadSeeker R}.
Variables (content : R -> list Byte.byte) (offset : R -> nat).
Hypothesis law : lawful RS content offset.



End AddFileFacts.

(** A source whose seek to the end fails: nothing is written. *)
Example TarFile_AddFile_seek_fails :
  let RS := memReadSeeker (fun wh => match wh with
                                     | SeekEnd => Some "not seekable"%string
                                     | _ => None
                                     end) (fun _ => None) in
  let file := {| mem_data := [Byte.x68; Byte.x69]; mem_pos := 0 |} in
  let t0 := TarFile.set_Writer
              (Some (tar_NewWriter (ToSink (UserWriter 0 false))))
              TarFile.zero in
  TarFile.AddFile (RS := RS) quietEnv 3 t0 (str "hi.txt") file []
  = (Ret (file, Some "not seekable"%string), []).
Proof. reflexivity. Qed.

(** A source whose read fails after the first byte: the header and the
    bytes read so far are written, and the read error is returned. *)
Example TarFile_AddFile_read_fails :
  let RS := memReadSeeker (fun _ => None)
              (fun off => if off =? 2 then Some "bad sector"%string
                          else None) in
  let file := {| mem_data := [Byte.x68; Byte.x69; Byte.x21]; mem_pos := 0 |} in
  let w := tar_NewWriter (ToSink (UserWriter 0 false)) in
  let t0 := TarFile.set_Writer (Some w) TarFile.zero in
  let env := {| reply_err := fun _ _ => None;
                reply_n := fun ev _ => Z.of_nat (length (payload ev));
                clock := fun _ => 7%Z |} in
  let RS1 := {| Read := fun n f => @Read _ RS (Z.min n 2) f;
                Seek := @Seek _ RS |} in
  TarFile.AddFile (RS := RS1) env 4 t0 (str "hi.txt") file []
  = (Ret ({| mem_data := mem_data file; mem_pos := 2 |},
          Some "bad sector"%string),
     [EvTarWriteHeader w {| th_Name := str "hi.txt";
                            th_Typeflag := tar_TypeReg;
                            th_Size := 3;
                            th_Mode := 438;
                            th_ModTime := 7 |};
      EvTarWrite w [Byte.x68; Byte.x69]]).
Proof. vm_compute. reflexivity. Qed.

(** An encoder whose [Write] is short: [io.ErrShortWrite] is returned. *)
Example ZipFile_AddFile_short_write :
  let file := {| mem_data := [Byte.x68; Byte.x69; Byte.x21]; mem_pos := 0 |} in
  let w := zip_NewWriter (UserWriter 0 false) in
  let z := {| ZipFile.Writer := Some w;
              ZipFile.Name := str "a.zip";
              ZipFile.out := None |} in
  let env := {| reply_err := fun _ _ => None;
                reply_n := fun _ _ => 2%Z;
                clock := fun _ => 0%Z |} in
  ZipFile.AddFile (RS := bytesReader) env 4 z (str "hi.txt") file []
  = (Ret ({| mem_data := mem_data file; mem_pos := 3 |}, Some ErrShortWrite),
     [EvZipCreateHeader w {| zh_Name := str "hi.txt";
                             zh_Flags := 2048;
                             zh_Method := 8 |};
      EvZipWrite w [Byte.x68; Byte.x69; Byte.x21]]).
Proof. vm_compute. reflexivity. Qed.



(** ** Adding a tree *)

Section AddAllFacts.
Variable env : Env.
Context {A : Type} {AX : Archivex.t A}.
Variable a : A.

(** Entries are added from left to right, and what follows the first one
    that fails is not added. *)
Lemma addEntries_app (es1 es2 : list Tree.entry) (tr : trace) :
  Tree.addEntries env a (es1 ++ es2) tr
  = match Tree.addEntries env a es1 tr with
    | (Ret None, tr1) => Tree.addEntries env a es2 tr1
    | r => r
    end.
Proof.
  revert tr. induction es1 as [|e es1 IH]; intros tr; [reflexivity|].
  simpl. unfold bind.
  destruct (Tree.addEntry env a e tr) as [[[x|]| |] tr1]; auto.
Qed.

(** The first entry that fails ends the run, and its error is returned. *)
Lemma addEntries_first_error (es1 es2 : list Tree.entry) (e : Tree.entry)
    (x : error) (tr tr1 tr2 : trace) :
  Tree.addEntries env a es1 tr = (Ret None, tr1) ->
  Tree.addEntry env a e tr1 = (Ret (Some x), tr2) ->
  Tree.addEntries env a (es1 ++ e :: es2) tr = (Ret (Some x), tr2).
Proof.
  intros H1 H2. rewrite addEntries_app, H1. simpl. unfold bind.
  rewrite H2. reflexivity.
Qed.





End AddAllFacts.




(** A tree added to a ZIP archive. *)
Example AddAll_zip_tree :
  let w := zip_NewWriter (UserWriter 0 false) in
  let z := {| ZipFile.Writer := Some w;
              ZipFile.Name := str "a.zip";
              ZipFile.out := None |} in
  let root := Tree.Directory (str "docs")
                [Tree.RegularFile (str "a.txt") [Byte.x68; Byte.x69];
                 Tree.Directory (str "sub")
                   [Tree.RegularFile (str "b.txt") [Byte.x21]]] in
  let h (name : string) method := {| zh_Name := str name;
                          zh_Flags := 2048;
                          zh_Method := method |} in
  Tree.AddAll quietEnv root true z []
  = (Ret None,
     [EvZipCreateHeader w (h "docs/"%string 0%Z);
      EvZipCreateHeader w (h "docs/a.txt"%string 8%Z);
      EvZipWrite w [Byte.x68; Byte.x69];
      EvZipCreateHeader w (h "docs/sub/"%string 0%Z);
      EvZipCreateHeader w (h "docs/sub/b.txt"%string 8%Z);
      EvZipWrite w [Byte.x21]]).
Proof. vm_compute. reflexivity. Qed.

(** * Further properties of the writers *)

(** ** Directory entries *)

Lemma slash_suffix_once (path : gostring) :
  HasSuffix (if negb (HasSuffix path (str "/")) then path ++ str "/"
             else path) (str "/") = true.
Proof.
  destruct (HasSuffix path (str "/")) eqn:E; simpl;
    [exact E | apply HasSuffix_app].
Qed.

(** X1: [ZipFile.AddDirectory] on an open handle makes one call, a header
    with the stored method and flag bit 11 and no data, and returns its
    error.  The entry name ends in a slash: the path itself when it has
    one, the path with one appended otherwise, so that adding the
    resulting name again is the same call. *)
Theorem ZipFile_AddDirectory_entry :
  forall env z w path tr,
    ZipFile.Writer z = Some w ->
    exists h,
      ZipFile.AddDirectory env z path tr
      = (Ret (reply_err env (EvZipCreateHeader w h) tr),
         tr ++ [EvZipCreateHeader w h])
      /\ HasSuffix (zh_Name h) (str "/") = true
      /\ (HasSuffix path (str "/") = true -> zh_Name h = path)
      /\ (HasSuffix path (str "/") = false -> zh_Name h = path ++ str "/")
      /\ zh_Method h = zip_Store
      /\ Z.testbit (zh_Flags h) 11 = true
      /\ ZipFile.AddDirectory env z (zh_Name h) tr
         = ZipFile.AddDirectory env z path tr.
Proof.
  intros env z w path tr Hw.
  unfold ZipFile.AddDirectory, bind, deref, call. rewrite Hw.
  pose proof (slash_suffix_once path) as Hs.
  destruct (HasSuffix path (str "/")) eqn:E; cbn [negb] in *;
    (eexists; split; [reflexivity|]); cbn [zh_Name zh_Method zh_Flags];
    rewrite Hs; cbn [negb];
    repeat (split; [first [reflexivity | discriminate | intros _; reflexivity]|]);
    reflexivity.
Qed.

Lemma ZipFile_AddDirectory_entry_witness :
  let w := zip_NewWriter (UserWriter 0 false) in
  let z := {| ZipFile.Writer := Some w;
              ZipFile.Name := str "a.zip";
              ZipFile.out := None |} in
  ZipFile.Writer z = Some w
  /\ exists h,
       ZipFile.AddDirectory quietEnv z (str "sub") []
       = (Ret None, [EvZipCreateHeader w h])
       /\ zh_Name h = str "sub/".
Proof.
  intros w z. split; [reflexivity|].
  destruct (@ZipFile_AddDirectory_entry quietEnv z w (str "sub") [] eq_refl)
    as (h & Hrun & _ & _ & Hn & _).
  exists h. split; [exact Hrun | exact (Hn eq_refl)].
Defined.

(** X2: [TarFile.AddDirectory] on an open handle makes one call, a
    directory header of size 0 stamped with the current time, whose mode
    has the nine permission bits and the directory bit set, and returns
    its error.  The entry name ends in a slash, added only when the path
    has none. *)
Theorem TarFile_AddDirectory_entry :
  forall env t0 w path tr,
    TarFile.Writer t0 = Some w ->
    exists h,
      TarFile.AddDirectory env t0 path tr
      = (Ret (reply_err env (EvTarWriteHeader w h) tr),
         tr ++ [EvTarWriteHeader w h])
      /\ HasSuffix (th_Name h) (str "/") = true
      /\ (HasSuffix path (str "/") = true -> th_Name h = path)
      /\ (HasSuffix path (str "/") = false -> th_Name h = path ++ str "/")
      /\ th_Typeflag h = tar_TypeDir
      /\ th_Size h = 0%Z
      /\ Z.land (th_Mode h) 511 = 511%Z
      /\ Z.testbit (th_Mode h) 31 = true
      /\ th_ModTime h = clock env tr
      /\ TarFile.AddDirectory env t0 (th_Name h) tr
         = TarFile.AddDirectory env t0 path tr.
Proof.
  intros env t0 w path tr Hw.
  unfold TarFile.AddDirectory, bind, deref, call, time_Now. rewrite Hw.
  pose proof (slash_suffix_once path) as Hs.
  destruct (HasSuffix path (str "/")) eqn:E; cbn [negb] in *;
    (eexists; split; [reflexivity|]);
    cbn [th_Name th_Typeflag th_Size th_Mode th_ModTime];
    rewrite Hs; cbn [negb];
    repeat (split; [first [reflexivity | discriminate | intros _; reflexivity]|]);
    reflexivity.
Qed.

Lemma TarFile_AddDirectory_entry_witness :
  let w := tar_NewWriter (ToSink (UserWriter 0 false)) in
  let t0 := TarFile.set_Writer (Some w) TarFile.zero in
  TarFile.Writer t0 = Some w
  /\ exists h,
       TarFile.AddDirectory quietEnv t0 (str "sub/") []
       = (Ret None, [EvTarWriteHeader w h])
       /\ th_Name h = str "sub/".
Proof.
  intros w t0. split; [reflexivity|].
  destruct (@TarFile_AddDirectory_entry quietEnv t0 w (str "sub/") [] eq_refl)
    as (h & Hrun & _ & Hn & _).
  exists h. split; [exact Hrun | exact (Hn eq_refl)].
Defined.

(** ** Creating *)

(** X3: [ZipFile.Create] makes one call, [os.Create] on the name it
    stores, and that name always ends in [".zip"].  When the call fails,
    its error is returned and the encoder of the handle is left as it
    was; when it succeeds, a new encoder is bound to the file.  [out] is
    never touched. *)
Theorem ZipFile_Create_opens_stored_name :
  forall env z name tr,
  exists z1 err,
    ZipFile.Create env z name tr
    = (Ret (z1, err), tr ++ [EvOsCreate (ZipFile.Name z1)])
    /\ HasSuffix (ZipFile.Name z1) dot_zip = true
    /\ err = reply_err env (EvOsCreate (ZipFile.Name z1)) tr
    /\ ZipFile.out z1 = ZipFile.out z
    /\ ZipFile.Writer z1
       = match err with
         | Some _ => ZipFile.Writer z
         | None => Some (zip_NewWriter (OsFile (ZipFile.Name z1)))
         end.
Proof.
  intros env z name tr.
  unfold ZipFile.Create, os_Create, call, bind, ret. cbn [ZipFile.Name].
  destruct (reply_err env (EvOsCreate (zipName name)) tr) as [e|] eqn:E;
    [exists {| ZipFile.Writer := ZipFile.Writer z;
               ZipFile.Name := zipName name;
               ZipFile.out := ZipFile.out z |}, (Some e)
    |exists {| ZipFile.Writer := Some (zip_NewWriter (OsFile (zipName name)));
               ZipFile.Name := zipName name;
               ZipFile.out := ZipFile.out z |}, None];
    (split; [reflexivity|]); cbn [ZipFile.Name ZipFile.Writer ZipFile.out];
    (split; [apply zipName_suffix|]); rewrite E; repeat split.
Qed.

(** X4: a new [ZipFile] whose [Create] failed has no encoder: [Close],
    [AddDirectory] and [AddFile] on it panic, before any call is made and
    before the source is read. *)
Theorem ZipFile_failed_Create_then_panic :
  forall env name tr e,
    reply_err env (EvOsCreate (zipName name)) tr = Some e ->
    exists z1 tr1,
      ZipFile.Create env ZipFile.zero name tr = (Ret (z1, Some e), tr1)
      /\ ZipFile.Close env z1 tr1 = (Panic, tr1)
      /\ (forall path, ZipFile.AddDirectory env z1 path tr1 = (Panic, tr1))
      /\ (forall R (RS : ReadSeeker R) fuel path (file : R),
            ZipFile.AddFile env fuel z1 path file tr1 = (Panic, tr1)).
Proof.
  intros env name tr e E.
  unfold ZipFile.Create, os_Create, call, bind, ret. cbn [ZipFile.Name].
  rewrite E. do 2 eexists. split; [reflexivity|]. repeat split.
Qed.

Lemma ZipFile_failed_Create_then_panic_witness :
  reply_err (createFails "denied"%string) (EvOsCreate (zipName (str "out"))) []
  = Some "denied"%string
  /\ exists z1 tr1,
       ZipFile.Create (createFails "denied"%string) ZipFile.zero (str "out") []
       = (Ret (z1, Some "denied"%string), tr1)
       /\ ZipFile.Close (createFails "denied"%string) z1 tr1 = (Panic, tr1).
Proof.
  split; [reflexivity|].
  destruct (@ZipFile_failed_Create_then_panic (createFails "denied"%string)
              (str "out") [] "denied"%string eq_refl)
    as (z1 & tr1 & H1 & H2 & _).
  exists z1, tr1. split; assumption.
Defined.

(** X5: [TarFile.Create] makes one call, [os.Create] on its argument, and
    returns that call's error.  The file it creates bears the name the
    handle stores exactly when the argument already ends in [".tar"] or
    [".tar.gz"]: for every other argument the archive is written to a file
    whose name differs from [Name]. *)
Theorem TarFile_Create_path_and_Name :
  forall env t0 name tr,
  exists t1,
    TarFile.Create env t0 name tr
    = (Ret (t1, reply_err env (EvOsCreate name) tr), tr ++ [EvOsCreate name])
    /\ (TarFile.Name t1 = name
        <-> HasSuffix name dot_tar = true \/ HasSuffix name dot_tar_gz = true).
Proof.
  intros env t0 name tr.
  pose proof (configureName_suffix t0 name) as [Hs _].
  pose proof (@configureName_fixed t0 name) as Hf.
  unfold TarFile.Create, os_Create, call, bind, ret.
  destruct (reply_err env (EvOsCreate name) tr) as [e|];
    eexists; (split; [reflexivity|]);
    destruct (TarFile.Compressed (TarFile.configureName t0 name));
    cbn [TarFile.Name TarFile.set_out TarFile.set_Writer TarFile.set_GzWriter];
    (split; [intros E; rewrite E in Hs; exact Hs | intros H; apply Hf, H]).
Qed.

(** X6: a failed [TarFile.Create] is not undone: the handle keeps the
    encoders and the sink it had, and has already taken the name and the
    compressed flag computed from the new argument. *)
Theorem TarFile_failed_Create_keeps_encoders :
  forall env t0 name tr e,
    reply_err env (EvOsCreate name) tr = Some e ->
    exists t1,
      TarFile.Create env t0 name tr = (Ret (t1, Some e), tr ++ [EvOsCreate name])
      /\ TarFile.Writer t1 = TarFile.Writer t0
      /\ TarFile.GzWriter t1 = TarFile.GzWriter t0
      /\ TarFile.out t1 = TarFile.out t0
      /\ (HasSuffix (TarFile.Name t1) dot_tar = true
          \/ HasSuffix (TarFile.Name t1) dot_tar_gz = true)
      /\ TarFile.Compressed t1 = HasSuffix (TarFile.Name t1) dot_tar_gz.
Proof.
  intros env t0 name tr e E.
  pose proof (configureName_suffix t0 name) as [Hs Hc].
  unfold TarFile.Create, os_Create, call, bind, ret. rewrite E.
  eexists. split; [reflexivity|].
  split; [|split; [|split; [|split; [exact Hs | exact Hc]]]];
    unfold TarFile.configureName;
    destruct (HasSuffix name dot_tar_gz), (HasSuffix name dot_tar),
             (HasSuffix name dot_zip); reflexivity.
Qed.

Lemma TarFile_failed_Create_keeps_encoders_witness :
  let env := createFails "denied"%string in
  let w := tar_NewWriter (ToSink (UserWriter 0 true)) in
  let t0 := {| TarFile.Writer := Some w;
               TarFile.Name := str "a.tar";
               TarFile.GzWriter := None;
               TarFile.Compressed := false;
               TarFile.out := Some (UserWriter 0 true) |} in
  reply_err env (EvOsCreate (str "b.tar.gz")) [] = Some "denied"%string
  /\ exists t1,
       TarFile.Create env t0 (str "b.tar.gz") []
       = (Ret (t1, Some "denied"%string), [EvOsCreate (str "b.tar.gz")])
       /\ TarFile.Writer t1 = Some w
       /\ TarFile.GzWriter t1 = None
       /\ TarFile.Compressed t1 = true
       /\ TarFile.Close env t1 [] = (Panic, [EvTarClose w]).
Proof.
  intros env w t0. split; [reflexivity|].
  destruct (@TarFile_failed_Create_keeps_encoders env t0 (str "b.tar.gz") []
              "denied"%string eq_refl) as (t1 & Hrun & _).
  exists t1. split; [exact Hrun|].
  vm_compute in Hrun. injection Hrun as <-. repeat split.
Defined.

Lemma TarFile_bound_layered (c : TarFile.t) (w : sink) :
  let t1 := TarFile.set_out (Some w)
              (if TarFile.Compressed c then
                 TarFile.set_Writer
                   (Some (tar_NewWriter (ToGzip (gzip_NewWriter w))))
                   (TarFile.set_GzWriter (Some (gzip_NewWriter w)) c)
               else TarFile.set_Writer (Some (tar_NewWriter (ToSink w))) c) in
  wellLayered t1 /\ TarFile.out t1 = Some w.
Proof.
  unfold wellLayered.
  destruct (TarFile.Compressed c) eqn:Ec; simpl;
    (split; [exists w; rewrite Ec; auto | reflexivity]).
Qed.

Lemma TarFile_Create_layered (env : Env) (t0 : TarFile.t) (name : gostring)
    (tr : trace) (t1 : TarFile.t) (tr' : trace) :
  TarFile.Create env t0 name tr = (Ret (t1, None), tr') ->
  wellLayered t1 /\ TarFile.out t1 = Some (OsFile name).
Proof.
  unfold TarFile.Create, os_Create, call, bind, ret.
  destruct (reply_err env (EvOsCreate name) tr); [discriminate|].
  intros [= <- _]. apply TarFile_bound_layered.
Qed.

Lemma TarFile_CreateWriter_layered (t0 : TarFile.t) (name : gostring)
    (w : sink) (tr : trace) (t1 : TarFile.t) (tr' : trace) :
  TarFile.CreateWriter t0 name w tr = (Ret (t1, None), tr') ->
  wellLayered t1 /\ TarFile.out t1 = Some w.
Proof.
  unfold TarFile.CreateWriter, ret.
  intros [= <- _]. apply TarFile_bound_layered.
Qed.

(** X7: after a successful [TarFile.Create] or [TarFile.CreateWriter],
    whatever the handle held before, the encoders are layered on the sink
    recorded in [out]: the TAR encoder writes through the gzip encoder
    recorded in [GzWriter] when the handle is compressed, and straight to
    the sink otherwise.  The sink is the created file, or the writer
    given. *)
Theorem TarFile_Create_layering :
  forall env t0 name tr t1 tr',
    TarFile.Create env t0 name tr = (Ret (t1, None), tr')
    \/ (exists w, TarFile.CreateWriter t0 name w tr = (Ret (t1, None), tr')) ->
    wellLayered t1
    /\ (TarFile.Create env t0 name tr = (Ret (t1, None), tr') ->
        TarFile.out t1 = Some (OsFile name))
    /\ (forall w, TarFile.CreateWriter t0 name w tr = (Ret (t1, None), tr') ->
        TarFile.out t1 = Some w).
Proof.
  intros env t0 name tr t1 tr' H. split; [|split].
  - destruct H as [H | [w H]].
    + exact (proj1 (@TarFile_Create_layered env t0 name tr t1 tr' H)).
    + exact (proj1 (@TarFile_CreateWriter_layered t0 name w tr t1 tr' H)).
  - intros E. exact (proj2 (@TarFile_Create_layered env t0 name tr t1 tr' E)).
  - intros w E. exact (proj2 (@TarFile_CreateWriter_layered t0 name w tr t1 tr' E)).
Qed.

Lemma TarFile_Create_layering_witness :
  let t1 := {| TarFile.Writer :=
                 Some (tar_NewWriter
                         (ToGzip (gzip_NewWriter (OsFile (str "a.tar.gz")))));
               TarFile.Name := str "a.tar.gz";
               TarFile.GzWriter := Some (gzip_NewWriter (OsFile (str "a.tar.gz")));
               TarFile.Compressed := true;
               TarFile.out := Some (OsFile (str "a.tar.gz")) |} in
  TarFile.Create quietEnv TarFile.zero (str "a.tar.gz") []
  = (Ret (t1, None), [EvOsCreate (str "a.tar.gz")])
  /\ wellLayered t1.
Proof.
  intros t1. split; [reflexivity|].
  apply (@TarFile_Create_layering quietEnv TarFile.zero (str "a.tar.gz") []
           t1 [EvOsCreate (str "a.tar.gz")]).
  left. reflexivity.
Defined.

(** ** Closing an open handle *)

(** X8: a [ZipFile] opened from the zero value, by [Create] or by
    [CreateWriter], never releases its sink: [Close] makes one call, the
    finalization of the encoder, and returns its error.  The file that
    [Create] opened, or a closable writer given to [CreateWriter], stays
    open. *)
Theorem ZipFile_Close_never_releases :
  forall env name w tr z1 tr1,
    ZipFile.Create env ZipFile.zero name tr = (Ret (z1, None), tr1)
    \/ ZipFile.CreateWriter ZipFile.zero name w tr = (Ret (z1, None), tr1) ->
    exists zw,
      ZipFile.Writer z1 = Some zw
      /\ forall tr2,
           ZipFile.Close env z1 tr2
           = (Ret (reply_err env (EvZipClose zw) tr2), tr2 ++ [EvZipClose zw]).
Proof.
  intros env name w tr z1 tr1 H.
  assert (E : ZipFile.out z1 = None /\ exists zw, ZipFile.Writer z1 = Some zw).
  { destruct H as [H | H].
    - unfold ZipFile.Create, os_Create, call, bind, ret in H.
      destruct (reply_err env _ tr); [discriminate|].
      injection H as <- _. split; [reflexivity | eexists; reflexivity].
    - unfold ZipFile.CreateWriter, ret in H.
      injection H as <- _. split; [reflexivity | eexists; reflexivity]. }
  destruct E as [Ho [zw Hw]]. exists zw. split; [exact Hw|].
  intros tr2. rewrite (ZipFile_Close_run env z1 tr2 Hw), Ho. reflexivity.
Qed.

Lemma ZipFile_Close_never_releases_witness :
  let w := UserWriter 0 true in
  let z1 := {| ZipFile.Writer := Some (zip_NewWriter w);
               ZipFile.Name := str "label";
               ZipFile.out := None |} in
  ZipFile.CreateWriter ZipFile.zero (str "label") w [] = (Ret (z1, None), [])
  /\ implementsCloser w = true
  /\ ZipFile.Close quietEnv z1 [] = (Ret None, [EvZipClose (zip_NewWriter w)]).
Proof.
  intros w z1. split; [reflexivity|]. split; [reflexivity|].
  destruct (@ZipFile_Close_never_releases quietEnv (str "label") w [] z1 []
              (or_intror eq_refl)) as (zw & Hw & Hc).
  injection Hw as <-. exact (Hc []).
Defined.

(** X9: [TarFile.Close] on a handle with the layering that [Create] and
    [CreateWriter] set up never panics, and its first call finalizes the
    TAR encoder.  It releases the sink exactly when the sink is an
    [io.Closer] and [Close] returns nil: when finalizing the TAR or the
    gzip encoder fails, the error is returned and the sink is left
    open. *)
Theorem TarFile_Close_releases_iff_nil :
  forall env t1 tr,
    wellLayered t1 ->
    exists err w evs s,
      TarFile.Close env t1 tr = (Ret err, tr ++ EvTarClose w :: evs)
      /\ TarFile.Writer t1 = Some w
      /\ TarFile.out t1 = Some s
      /\ (In (EvSinkClose s) evs <-> implementsCloser s = true /\ err = None).
Proof.
  intros env t1 tr [s [Ho Hl]].
  unfold TarFile.Close, bind, deref, call, ret, asCloser. rewrite Ho.
  destruct (TarFile.Compressed t1).
  - destruct Hl as [Hg Hw]. rewrite Hw, Hg.
    destruct (reply_err env (EvTarClose _) tr) as [e|].
    { exists (Some e), (tar_NewWriter (ToGzip (gzip_NewWriter s))), [], s.
      do 3 (split; [reflexivity|]); simpl;
        intuition (try discriminate; try congruence). }
    destruct (reply_err env (EvGzipClose _) _) as [e|].
    { exists (Some e), (tar_NewWriter (ToGzip (gzip_NewWriter s))),
             [EvGzipClose (gzip_NewWriter s)], s.
      rewrite <- app_assoc.
      do 3 (split; [reflexivity|]); simpl;
        intuition (try discriminate; try congruence). }
    destruct (implementsCloser s) eqn:Ei.
    + exists None, (tar_NewWriter (ToGzip (gzip_NewWriter s))),
             [EvGzipClose (gzip_NewWriter s); EvSinkClose s], s.
      rewrite <- !app_assoc. do 3 (split; [reflexivity|]); simpl;
        intuition (try discriminate; try congruence).
    + exists None, (tar_NewWriter (ToGzip (gzip_NewWriter s))),
             [EvGzipClose (gzip_NewWriter s)], s.
      rewrite <- !app_assoc.
      do 3 (split; [reflexivity|]); simpl;
        intuition (try discriminate; try congruence).
  - rewrite Hl.
    destruct (reply_err env (EvTarClose _) tr) as [e|].
    { exists (Some e), (tar_NewWriter (ToSink s)), [], s.
      do 3 (split; [reflexivity|]); simpl;
        intuition (try discriminate; try congruence). }
    destruct (implementsCloser s) eqn:Ei.
    + exists None, (tar_NewWriter (ToSink s)), [EvSinkClose s], s.
      rewrite <- !app_assoc. do 3 (split; [reflexivity|]); simpl;
        intuition (try discriminate; try congruence).
    + exists None, (tar_NewWriter (ToSink s)), [], s.
      do 3 (split; [reflexivity|]); simpl;
        intuition (try discriminate; try congruence).
Qed.

Lemma TarFile_Close_releases_iff_nil_witness :
  let file := OsFile (str "a.tar.gz") in
  let env := gzipCloseFails "no space"%string in
  let t1 := {| TarFile.Writer :=
                 Some (tar_NewWriter (ToGzip (gzip_NewWriter file)));
               TarFile.Name := str "a.tar.gz";
               TarFile.GzWriter := Some (gzip_NewWriter file);
               TarFile.Compressed := true;
               TarFile.out := Some file |} in
  wellLayered t1
  /\ exists err w evs,
       TarFile.Close env t1 [] = (Ret err, [] ++ EvTarClose w :: evs)
       /\ err = Some "no space"%string
       /\ ~ In (EvSinkClose file) evs.
Proof.
  intros file env t1.
  assert (Hl : wellLayered t1) by (exists file; simpl; auto).
  split; [exact Hl|].
  destruct (@TarFile_Close_releases_iff_nil env t1 [] Hl)
    as (err & w & evs & s & Hrun & _ & Ho & Hiff).
  injection Ho as <-.
  exists err, w, evs. split; [exact Hrun|].
  vm_compute in Hrun. injection Hrun as <- _ _.
  split; [reflexivity|].
  intros HI. apply Hiff in HI. destruct HI as [_ HI]. discriminate HI.
Defined.

(** ** Names with a single extension *)

Lemma tar_gz_not_zip (p : gostring) :
  HasSuffix (p ++ dot_tar_gz) dot_zip = false.
Proof.
  apply (@not_HasSuffix_last _ _ (p ++ str ".tar.g") (str ".zi")
           "z"%char "p"%char).
  - discriminate.
  - rewrite <- app_assoc. reflexivity.
  - reflexivity.
Qed.

Lemma zip_not_tar_gz (p : gostring) :
  HasSuffix (p ++ dot_zip) dot_tar_gz = false.
Proof.
  apply (@not_HasSuffix_last _ _ (p ++ str ".zi") (str ".tar.g")
           "p"%char "z"%char).
  - discriminate.
  - rewrite <- app_assoc. reflexivity.
  - reflexivity.
Qed.

Lemma zip_not_tar (p : gostring) :
  HasSuffix (p ++ dot_zip) dot_tar = false.
Proof.
  apply (@not_HasSuffix_last _ _ (p ++ str ".zi") (str ".ta")
           "p"%char "r"%char).
  - discriminate.
  - rewrite <- app_assoc. reflexivity.
  - reflexivity.
Qed.

(** X10: when [".tar.gz"] occurs in the name only as its suffix,
    [ZipFile.Create] rewrites exactly that suffix: for [p ++ ".tar.gz"] it
    stores, and creates, [p ++ ".zip"]. *)
Theorem ZipFile_Create_rewrites_suffix :
  forall env z p tr,
    Index (p ++ dot_tar_gz) dot_tar_gz = Some (length p) ->
    exists z1 err,
      ZipFile.Create env z (p ++ dot_tar_gz) tr
      = (Ret (z1, err), tr ++ [EvOsCreate (p ++ dot_zip)])
      /\ ZipFile.Name z1 = p ++ dot_zip.
Proof.
  intros env z p tr Hi.
  assert (E : zipName (p ++ dot_tar_gz) = p ++ dot_zip).
  { unfold zipName. rewrite tar_gz_not_zip, HasSuffix_app. simpl.
    apply Replace_single; [discriminate | reflexivity | exact Hi]. }
  unfold ZipFile.Create, os_Create, call, bind, ret. cbn [ZipFile.Name].
  rewrite E.
  destruct (reply_err env (EvOsCreate (p ++ dot_zip)) tr);
    do 2 eexists; split; reflexivity.
Qed.

Lemma ZipFile_Create_rewrites_suffix_witness :
  Index (str "backup" ++ dot_tar_gz) dot_tar_gz = Some (length (str "backup"))
  /\ exists z1 err,
       ZipFile.Create quietEnv ZipFile.zero (str "backup.tar.gz") []
       = (Ret (z1, err), [EvOsCreate (str "backup.zip")])
       /\ ZipFile.Name z1 = str "backup.zip".
Proof.
  split; [reflexivity|].
  exact (@ZipFile_Create_rewrites_suffix quietEnv ZipFile.zero (str "backup")
           [] eq_refl).
Defined.

(** X11: when [".zip"] occurs in the name only as its suffix,
    [configureName] replaces exactly that suffix: for [p ++ ".zip"] it
    stores [p ++ ".tar.gz"] and marks the handle compressed, and leaves
    the encoders and the sink of the handle alone. *)
Theorem TarFile_configureName_rewrites_suffix :
  forall t0 p,
    Index (p ++ dot_zip) dot_zip = Some (length p) ->
    TarFile.configureName t0 (p ++ dot_zip)
    = TarFile.set_Name (p ++ dot_tar_gz) (TarFile.set_Compressed true t0).
Proof.
  intros t0 p Hi. unfold TarFile.configureName.
  rewrite zip_not_tar_gz, zip_not_tar, HasSuffix_app. simpl.
  rewrite Replace_single; [reflexivity | discriminate | reflexivity | exact Hi].
Qed.

Lemma TarFile_configureName_rewrites_suffix_witness :
  Index (str "out" ++ dot_zip) dot_zip = Some (length (str "out"))
  /\ TarFile.configureName TarFile.zero (str "out.zip")
     = TarFile.set_Name (str "out.tar.gz")
         (TarFile.set_Compressed true TarFile.zero).
Proof.
  split; [reflexivity|].
  exact (@TarFile_configureName_rewrites_suffix TarFile.zero (str "out")
           eq_refl).
Defined.

(** ** Adding a file when nothing fails *)

Section AddFileSuccess.
Context {R : Type} {RS : ReadSeeker R}.
Variables (content : R -> list Byte.byte) (offset : R -> nat).
Hypothesis law : lawful RS content offset.
Hypothesis reads : readsUntilEOF RS.
Variable env : Env.

(** A copy whose reads and writes do not fail returns no error. *)
Lemma copy_loop_no_error (dst : list Byte.byte -> event) (buflen : Z) :
  completeWrites env dst ->
  forall fuel src written tr src' n err tr',
    copy_loop env fuel dst buflen src written tr
    = (Ret (src', (n, err)), tr') ->
    err = None.
Proof.
  intros Hw. induction fuel as [|fuel IH];
    intros src written tr src' n err tr'; [discriminate|].
  cbn [copy_loop].
  destruct (Read buflen src) as [src1 [p er]] eqn:ER.
  assert (Her : forall e, er = Some e -> error_eqb e EOF = true).
  { intros e ->. rewrite (reads _ _ ER). reflexivity. }
  unfold bind at 1.
  destruct (0 <? Z.of_nat (length p))%Z.
  - unfold bind at 1, write at 1.
    destruct (Hw p tr) as [-> ->].
    replace ((Z.of_nat (length p) <? 0)%Z
             || (Z.of_nat (length p) <? Z.of_nat (length p))%Z) with false
      by (rewrite Z.ltb_irrefl, orb_false_r; symmetry; apply Z.ltb_ge;
          apply Nat2Z.is_nonneg).
    rewrite Z.eqb_refl. cbn [negb]. unfold ret at 1. cbv beta iota.
    destruct er as [e|].
    + rewrite (Her e eq_refl). unfold ret. intros [= _ _ <- _]. reflexivity.
    + apply IH.
  - unfold ret at 1. destruct er as [e|].
    + rewrite (Her e eq_refl). unfold ret. intros [= _ _ <- _]. reflexivity.
    + apply IH.
Qed.

(** X12: [TarFile.AddFile] returns nil when nothing fails: when the two
    seeks succeed, the header is accepted, every write is complete and the
    source reads up to [io.EOF].  The header then announces exactly the
    bytes that are written after it, which are the whole content of the
    source, and the source is left at its end. *)
Theorem TarFile_AddFile_succeeds :
  forall t0 w path (file f1 f2 : R) n1 n2 tr fuel,
    TarFile.Writer t0 = Some w ->
    Seek 0 SeekEnd file = (f1, (n1, None)) ->
    Seek 0 SeekStart f1 = (f2, (n2, None)) ->
    (forall h, reply_err env (EvTarWriteHeader w h) tr = None) ->
    completeWrites env (EvTarWrite w) ->
    length (content file) < fuel ->
    exists file' h chunks,
      TarFile.AddFile env fuel t0 path file tr
      = (Ret (file', None),
         tr ++ EvTarWriteHeader w h :: map (EvTarWrite w) chunks)
      /\ th_Name h = path
      /\ th_Typeflag h = tar_TypeReg
      /\ th_Size h = Z.of_nat (length (concat chunks))
      /\ concat chunks = content file
      /\ content file' = content file
      /\ offset file' = length (content file).
Proof.
  intros t0 w path file f1 f2 n1 n2 tr fuel Hw E1 E2 Hh Hwr Hfuel.
  destruct law as [_ LS].
  destruct (LS _ _ _ _ _ E1) as (Hc1 & Hsize & _).
  destruct (LS _ _ _ _ _ E2) as (Hc2 & Hn2 & Ho2).
  simpl in Hsize, Hn2. rewrite Z.add_0_r in Hsize.
  assert (Hoff : offset f2 = 0) by lia.
  unfold TarFile.AddFile. rewrite E1, E2.
  unfold bind at 1, time_Now at 1. unfold bind at 1, deref at 1. rewrite Hw.
  unfold bind at 1, call at 1. rewrite Hh.
  set (h := {| th_Name := path; th_Typeflag := tar_TypeReg; th_Size := n1;
               th_Mode := 438; th_ModTime := clock env tr |}).
  destruct (@copy_loop_spec R RS content offset law env (EvTarWrite w)
              (32 * 1024) eq_refl fuel f2 0%Z (tr ++ [EvTarWriteHeader w h]))
    as (src' & err & chunks & [n Hrun] & H1 & H2 & H3 & _ & H5).
  { rewrite Hc2, Hc1, Hoff. lia. }
  assert (err = None) as ->
    by (eapply copy_loop_no_error; [exact Hwr | exact Hrun]).
  specialize (H5 eq_refl).
  rewrite Hc2, Hc1 in *. rewrite Hoff in *. simpl in H3.
  rewrite skipn_all2, app_nil_r in H3 by assumption.
  exists src', h, chunks.
  unfold bind, io_Copy. rewrite Hrun, <- app_assoc.
  repeat split; auto.
  - simpl. rewrite <- H3. exact Hsize.
  - rewrite H2, <- H3. reflexivity.
Qed.

(** X13: [ZipFile.AddFile] returns nil when nothing fails: when the header
    is accepted, every write is complete and the source reads up to
    [io.EOF].  The bytes written after the header are those from the
    offset the source was at to its end; what lies before that offset is
    not archived. *)
Theorem ZipFile_AddFile_succeeds :
  forall z w path (file : R) tr fuel,
    ZipFile.Writer z = Some w ->
    (forall h, reply_err env (EvZipCreateHeader w h) tr = None) ->
    completeWrites env (EvZipWrite w) ->
    length (content file) - offset file < fuel ->
    exists file' h chunks,
      ZipFile.AddFile env fuel z path file tr
      = (Ret (file', None),
         tr ++ EvZipCreateHeader w h :: map (EvZipWrite w) chunks)
      /\ zh_Name h = path
      /\ zh_Method h = zip_Deflate
      /\ concat chunks = skipn (offset file) (content file)
      /\ content file' = content file
      /\ length (content file) <= offset file'.
Proof.
  intros z w path file tr fuel Hw Hh Hwr Hfuel.
  unfold ZipFile.AddFile.
  unfold bind at 1, deref at 1. rewrite Hw.
  unfold bind at 1, call at 1. rewrite Hh.
  set (h := {| zh_Name := path; zh_Flags := Z.shiftl 1 11;
               zh_Method := zip_Deflate |}).
  destruct (@copy_loop_spec R RS content offset law env (EvZipWrite w)
              (128 * 1024) eq_refl fuel file 0%Z
              (tr ++ [EvZipCreateHeader w h]))
    as (src' & err & chunks & [n Hrun] & H1 & H2 & H3 & _ & H5);
    [exact Hfuel|].
  assert (err = None) as ->
    by (eapply copy_loop_no_error; [exact Hwr | exact Hrun]).
  specialize (H5 eq_refl).
  rewrite (skipn_all2 (content file) H5), app_nil_r in H3.
  exists src', h, chunks.
  unfold bind, io_CopyBuffer.
  change (128 * 1024 =? 0)%Z with false. cbv iota.
  rewrite Hrun, <- app_assoc.
  repeat split; auto.
Qed.

(** X14: [ZipFile.AddFile] on a source that stands at or past its end
    writes the header and makes no [Write] call: an empty entry. *)
Theorem ZipFile_AddFile_at_end :
  forall z w path (file : R) tr fuel,
    ZipFile.Writer z = Some w ->
    length (content file) <= offset file ->
    0 < fuel ->
    exists file' err h,
      ZipFile.AddFile env fuel z path file tr
      = (Ret (file', err), tr ++ [EvZipCreateHeader w h])
      /\ zh_Name h = path.
Proof.
  intros z w path file tr fuel Hw Hend Hfuel.
  unfold ZipFile.AddFile.
  unfold bind at 1, deref at 1. rewrite Hw.
  unfold bind at 1, call at 1.
  set (h := {| zh_Name := path; zh_Flags := Z.shiftl 1 11;
               zh_Method := zip_Deflate |}).
  destruct (reply_err env (EvZipCreateHeader w h) tr) as [e|].
  { exists file, (Some e), h. split; reflexivity. }
  destruct (@copy_loop_spec R RS content offset law env (EvZipWrite w)
              (128 * 1024) eq_refl fuel file 0%Z
              (tr ++ [EvZipCreateHeader w h]))
    as (src' & err & chunks & [n Hrun] & H1 & H2 & H3 & H4 & H5);
    [lia|].
  rewrite skipn_all2 in H3 by assumption.
  assert (chunks = []) as ->.
  { destruct chunks as [|c l]; [reflexivity|].
    inversion H4 as [|? ? [Hc _] _]. subst.
    symmetry in H3. simpl in H3.
    apply app_eq_nil in H3. destruct H3 as [H3 _].
    apply app_eq_nil in H3. destruct H3 as [H3 _]. contradiction. }
  exists src', err, h.
  unfold bind, io_CopyBuffer.
  change (128 * 1024 =? 0)%Z with false. cbv iota.
  rewrite Hrun. simpl. rewrite app_nil_r. split; reflexivity.
Qed.

End AddFileSuccess.

Lemma bytesReader_readsUntilEOF : readsUntilEOF bytesReader.
Proof.
  intros n r r' p e. cbn [Read bytesReader memReadSeeker]. unfold mem_Read.
  destruct (length (mem_data r) <=? mem_pos r); intros [= _ _ <-];
    reflexivity.
Qed.

Lemma quietEnv_completeWrites_tar (w : tarWriter) :
  completeWrites quietEnv (EvTarWrite w).
Proof. intros p tr. split; reflexivity. Qed.

Lemma quietEnv_completeWrites_zip (w : zipWriter) :
  completeWrites quietEnv (EvZipWrite w).
Proof. intros p tr. split; reflexivity. Qed.

Lemma TarFile_AddFile_succeeds_witness :
  let data := [Byte.x68; Byte.x69; Byte.x21] in
  let file := {| mem_data := data; mem_pos := 2 |} in
  let w := tar_NewWriter (ToSink (UserWriter 0 false)) in
  let t0 := TarFile.set_Writer (Some w) TarFile.zero in
  lawful bytesReader mem_data mem_pos
  /\ readsUntilEOF bytesReader
  /\ completeWrites quietEnv (EvTarWrite w)
  /\ exists file' h chunks,
       TarFile.AddFile (RS := bytesReader) quietEnv 4 t0 (str "hi.txt") file []
       = (Ret (file', None),
          [] ++ EvTarWriteHeader w h :: map (EvTarWrite w) chunks)
       /\ th_Size h = 3%Z
       /\ concat chunks = data
       /\ mem_pos file' = 3.
Proof.
  intros data file w t0.
  split; [exact bytesReader_lawful|].
  split; [exact bytesReader_readsUntilEOF|].
  split; [apply quietEnv_completeWrites_tar|].
  destruct (@TarFile_AddFile_succeeds memFile bytesReader mem_data mem_pos
              bytesReader_lawful bytesReader_readsUntilEOF quietEnv
              t0 w (str "hi.txt") file
              {| mem_data := data; mem_pos := 3 |}
              {| mem_data := data; mem_pos := 0 |} 3%Z 0%Z [] 4
              eq_refl eq_refl eq_refl (fun _ => eq_refl)
              (quietEnv_completeWrites_tar w) ltac:(simpl; lia))
    as (file' & h & chunks & Hrun & _ & _ & Hs & Hc & _ & Ho).
  exists file', h, chunks. split; [exact Hrun|].
  rewrite Hs, Hc. repeat split. exact Ho.
Defined.

Lemma ZipFile_AddFile_succeeds_witness :
  let data := [Byte.x68; Byte.x69; Byte.x21] in
  let file := {| mem_data := data; mem_pos := 1 |} in
  let w := zip_NewWriter (UserWriter 0 false) in
  let z := {| ZipFile.Writer := Some w;
              ZipFile.Name := str "a.zip";
              ZipFile.out := None |} in
  lawful bytesReader mem_data mem_pos
  /\ readsUntilEOF bytesReader
  /\ completeWrites quietEnv (EvZipWrite w)
  /\ exists file' h chunks,
       ZipFile.AddFile (RS := bytesReader) quietEnv 3 z (str "hi.txt") file []
       = (Ret (file', None),
          [] ++ EvZipCreateHeader w h :: map (EvZipWrite w) chunks)
       /\ concat chunks = [Byte.x69; Byte.x21].
Proof.
  intros data file w z.
  split; [exact bytesReader_lawful|].
  split; [exact bytesReader_readsUntilEOF|].
  split; [apply quietEnv_completeWrites_zip|].
  destruct (@ZipFile_AddFile_succeeds memFile bytesReader mem_data mem_pos
              bytesReader_lawful bytesReader_readsUntilEOF quietEnv
              z w (str "hi.txt") file [] 3
              eq_refl (fun _ => eq_refl)
              (quietEnv_completeWrites_zip w) ltac:(simpl; lia))
    as (file' & h & chunks & Hrun & _ & _ & Hc & _).
  exists file', h, chunks. split; [exact Hrun | exact Hc].
Defined.

Lemma ZipFile_AddFile_at_end_witness :
  let file := {| mem_data := [Byte.x68; Byte.x69]; mem_pos := 2 |} in
  let w := zip_NewWriter (UserWriter 0 false) in
  let z := {| ZipFile.Writer := Some w;
              ZipFile.Name := str "a.zip";
              ZipFile.out := None |} in
  lawful bytesReader mem_data mem_pos
  /\ length (mem_data file) <= mem_pos file
  /\ exists file' err h,
       ZipFile.AddFile (RS := bytesReader) quietEnv 1 z (str "hi.txt") file []
       = (Ret (file', err), [] ++ [EvZipCreateHeader w h])
       /\ zh_Name h = str "hi.txt".
Proof.
  intros file w z.
  split; [exact bytesReader_lawful|].
  split; [simpl; lia|].
  exact (@ZipFile_AddFile_at_end memFile bytesReader mem_data mem_pos
           bytesReader_lawful quietEnv z w (str "hi.txt") file [] 1
           eq_refl ltac:(simpl; lia) ltac:(lia)).
Defined.
